(** * CppCmb: the runtime parser-combinator engine of [cppcmb.hpp]

    A shallow embedding of the value-shaping helpers of [namespace detail]
    and of the run-time combinators of [combinator_types<TokenIterator>],
    followed by the properties the engine's description states about them.

    Conventions of the embedding.
    - C++ values of any static type live in one universal type [value]:
      a [std::tuple<...>] is [Tuple], a [std::optional<T>] is [Optional],
      the container a repetition fills is [Container], anything else is
      [Bare].  Template dispatch on the static type (a tuple
      specialisation, [is_maybe_v]) becomes a match on the constructor.
    - A call either returns, or reads through an iterator that cannot be
      dereferenced (undefined behaviour), or runs a [while (true)] loop
      for longer than the fuel it was given: type [outcome]. *)

From Stdlib Require Import List Arith ZArith Lia Bool.
Import ListNotations.

Set Implicit Arguments.
Set Warnings "-register-all".

(** ** Outcomes of a call *)

Inductive outcome (A : Type) : Type :=
| Returns (a : A)
| Undefined
| OutOfFuel.

Arguments Returns {A} a.
Arguments Undefined {A}.
Arguments OutOfFuel {A}.

Definition bind {A B : Type} (m : outcome A) (k : A -> outcome B) : outcome B :=
  match m with
  | Returns a => k a
  | Undefined => Undefined
  | OutOfFuel => OutOfFuel
  end.

Notation "x <- m ;; k" := (bind m (fun x => k))
  (at level 61, m at next level, right associativity).

(** ** [namespace detail] *)

Module detail.
Section shaping.
Variable atom : Type.

(** The values the combinators produce and consume. *)
Inductive value : Type :=
| Bare (a : atom)
| Tuple (elems : list value)
| Optional (o : option value)
| Container (elems : list value).

(** [maybe<T>]: the optional-like wrapper a partial mapper returns.  It is a
    type of its own, not a [value], so an [Optional] datum is never taken for
    a mapping failure. *)
Definition maybe (T : Type) : Type := option T.

(** [maybe_ctors::make_maybe(val)]. *)
Definition make_maybe (T : Type) (val : T) : maybe T := Some val.

(** [as_tuple]: a tuple is passed as it is, anything else is wrapped by
    [std::make_tuple].  The tuple that comes out is given by the list of its
    components. *)
Definition as_tuple (arg : value) : list value :=
  match arg with
  | Tuple elems => elems
  | _ => [arg]
  end.

(** [unwrap_tuple]: the specialisation for [std::tuple<T>] unwraps
    [std::get<0>] and goes on; every other type is returned as it is. *)
Fixpoint unwrap_tuple (arg : value) : value :=
  match arg with
  | Tuple [t] => unwrap_tuple t
  | _ => arg
  end.

(** [identity]. *)
Definition identity (arg : value) : value := arg.

(** [tuple_of]: the argument itself when there is exactly one, a tuple of the
    arguments otherwise. *)
Definition tuple_of (args : list value) : value :=
  match args with
  | [a] => identity a
  | _ => Tuple args
  end.

(** [std::tuple_cat] over tuples given by their component lists. *)
Definition tuple_cat (tuples : list (list value)) : list value :=
  List.concat tuples.

(** [concat(args...)]:
    [unwrap_tuple(std::tuple_cat(as_tuple(args)...))]. *)
Definition concat (args : list value) : value :=
  unwrap_tuple (Tuple (tuple_cat (map as_tuple args))).

(** [filter_impl<Predicate>::operator()(args...)]. *)
Definition filter_impl (Predicate : list value -> bool) (args : list value)
  : maybe value :=
  if Predicate args then make_maybe (tuple_of args) else None.

(** What an argument holds once [std::make_tuple(std::forward<Ts>(args)...)]
    has been built [n] times from it.  [moved_from] is what one forwarding
    leaves behind: the value itself where forwarding copies (an lvalue
    argument, a trivially copyable type), the moved-from state of its type
    where forwarding moves (an rvalue argument, as [std::apply] on the tuple
    of [as_tuple] passes them). *)
Definition forwarded (moved_from : value -> value) (n : nat) (arg : value)
  : value :=
  Nat.iter n moved_from arg.

(** [std::get<I>(std::make_tuple(std::forward<Ts>(args)...))] for each index
    of the pack: one tuple is built per index, each from the arguments as the
    tuples built before it left them.  The order in which the tuples are
    built is the compiler's: [rank position] is the number of tuples built
    before the one for the index at [position] of the pack.  An index that is
    not below the number of arguments is refused by the compiler: there is no
    such program ([None]). *)
Fixpoint get_each (moved_from : value -> value) (rank : nat -> nat)
  (position : nat) (Indicies : list nat) (args : list value)
  : option (list value) :=
  match Indicies with
  | [] => Some []
  | Index :: Indicies' =>
      match nth_error (map (forwarded moved_from (rank position)) args) Index,
            get_each moved_from rank (S position) Indicies' args with
      | Some x, Some xs => Some (x :: xs)
      | _, _ => None
      end
  end.

(** Forwarding leaves every one of the arguments as it was: lvalue arguments,
    or types whose move is a copy. *)
Definition copies (moved_from : value -> value) (args : list value) : Prop :=
  forall x, In x args -> moved_from x = x.

(** [select_impl<Indicies...>::operator()(args...)]: [tuple_of] the selected
    components. *)
Definition select_impl (moved_from : value -> value) (rank : nat -> nat)
  (Indicies : list nat) (args : list value) : option value :=
  option_map tuple_of (get_each moved_from rank 0 Indicies args).

(** The number of components a value contributes to a concatenation. *)
Definition arity (v : value) : nat := length (as_tuple v).

(** A tuple with exactly one component: the shape [unwrap_tuple] removes. *)
Definition is_single (v : value) : bool :=
  match v with
  | Tuple [_] => true
  | _ => false
  end.

Definition is_tuple (v : value) : bool :=
  match v with
  | Tuple _ => true
  | _ => false
  end.

End shaping.

Arguments Bare {atom} a.
Arguments Tuple {atom} elems.
Arguments Optional {atom} o.
Arguments Container {atom} elems.
Arguments as_tuple {atom} arg.
Arguments unwrap_tuple {atom} arg.
Arguments identity {atom} arg.
Arguments tuple_of {atom} args.
Arguments tuple_cat {atom} tuples.
Arguments concat {atom} args.
Arguments filter_impl {atom} Predicate args.
Arguments forwarded {atom} moved_from n arg.
Arguments copies {atom} moved_from args.
Arguments get_each {atom} moved_from rank position Indicies args.
Arguments select_impl {atom} moved_from rank Indicies args.
Arguments arity {atom} v.
Arguments is_single {atom} v.
Arguments is_tuple {atom} v.

Section folds.
Variables Init Elem : Type.

(** [for (auto it = first; it != last; ++it) acc = body(acc, e);] where [e]
    is the element under [it]: the range is the list of the elements in the
    order the iterator visits them. *)
Fixpoint for_range (body : Init -> Elem -> Init) (range : list Elem)
  (acc : Init) : Init :=
  match range with
  | [] => acc
  | e :: range' => for_range body range' (body acc e)
  end.

(** [foldl_impl<Folder>::operator()(first, rest)]: the loop runs from
    [std::cbegin(rest)] to [std::cend(rest)] with
    [first = Folder()(std::move(first), e)], [e] being the element under the
    iterator. *)
Definition foldl_impl (Folder : Init -> Elem -> Init) (first : Init)
  (rest : list Elem) : Init :=
  for_range (fun first e => Folder first e) rest first.

(** [foldr_impl<Folder>::operator()(rest, first)]: the loop runs from
    [std::crbegin(rest)] to [std::crend(rest)] with
    [first = Folder()(e, std::move(first))], [e] being the element under the
    reverse iterator. *)
Definition foldr_impl (Folder : Elem -> Init -> Init) (rest : list Elem)
  (first : Init) : Init :=
  for_range (fun first e => Folder e first) (rev rest) first.

End folds.
End detail.

(** ** [combinator_types<TokenIterator>] *)

Module combinator_types.
Import detail.
Section engine.
Variable atom : Type.

(** The token stream holds values of the token type, whatever it is. *)
Definition token : Type := value atom.

(** A forward iterator into a token stream: the stream it walks and an
    offset into it.  The offset [length stream] is the end iterator. *)
Record TokenIterator : Type := mkIt { stream : list token; pos : nat }.

Definition begin_of (s : list token) : TokenIterator := mkIt s 0.
Definition end_of (s : list token) : TokenIterator := mkIt s (length s).

(** The iterator stands at the end of its stream. *)
Definition at_end (it : TokenIterator) : Prop := pos it = length (stream it).

(** [*it]: defined only where there is a token under the iterator. *)
Definition deref (it : TokenIterator) : option token :=
  nth_error (stream it) (pos it).

(** [std::next(it)]. *)
Definition next (it : TokenIterator) : TokenIterator :=
  mkIt (stream it) (S (pos it)).

(** [std::distance(from, to)]: the number of tokens consumed between two
    cursors of one stream. *)
Definition consumed (from to : TokenIterator) : Z :=
  (Z.of_nat (pos to) - Z.of_nat (pos from))%Z.

(** [result_type<Data...>]: [std::optional<std::pair<data, TokenIterator>>];
    the empty optional is the parse failure. *)
Definition result_type : Type := option (value atom * TokenIterator).

(** [make_result(data, it)]. *)
Definition make_result (data : value atom) (it : TokenIterator) : result_type :=
  Some (data, it).

(** [result_type<T>()]: the empty optional. *)
Definition failure : result_type := None.

(** A combinator ([cmb_wrap<TokenIterator, Callable>]): a callable from a
    cursor to a result. *)
Definition combinator : Type := TokenIterator -> outcome result_type.

(** [cmb_succ_fn]. *)
Definition cmb_succ_fn : combinator :=
  fun it => Returns (make_result (Tuple []) it).

(** [cmb_fail_helper<T>::cmb_fail_fn1]. *)
Definition cmb_fail_fn1 : combinator :=
  fun _ => Returns failure.

(** [cmb_one_fn]: [make_result( *it, std::next(it))], with no test on [it]. *)
Definition cmb_one_fn : combinator :=
  fun it =>
    match deref it with
    | Some tok => Returns (make_result tok (next it))
    | None => Undefined
    end.

(** [cmb_opt_fn_aux<Combinator>::cmb_opt_fn]. *)
Definition cmb_opt_fn (Combinator : combinator) : combinator :=
  fun it =>
    res <- Combinator it ;;
    match res with
    | Some (first, second) => Returns (make_result (Optional (Some first)) second)
    | None => Returns (make_result (Optional None) it)
    end.

(** [cmb_seq_fn_aux<First, Rest...>::cmb_seq_fn]. *)
Fixpoint cmb_seq_fn (First : combinator) (Rest : list combinator)
  : combinator :=
  fun it =>
    match Rest with
    | [] => First it
    | Second :: Rest' =>
        first <- First it ;;
        match first with
        | Some (first_data, first_it) =>
            rest <- cmb_seq_fn Second Rest' first_it ;;
            match rest with
            | Some (rest_data, rest_it) =>
                Returns (make_result (concat [first_data; rest_data]) rest_it)
            | None => cmb_fail_fn1 it
            end
        | None => cmb_fail_fn1 it
        end
    end.

(** [cmb_alt_fn_aux<ResultData, First, Rest...>::cmb_alt_fn]. *)
Fixpoint cmb_alt_fn (First : combinator) (Rest : list combinator)
  : combinator :=
  fun it =>
    match Rest with
    | [] => First it
    | Second :: Rest' =>
        first <- First it ;;
        match first with
        | Some _ => Returns first
        | None => cmb_alt_fn Second Rest' it
        end
    end.

(** The [while (true)] loop of [cmb_rep_fn]: [result] is the container filled
    so far, [it] the current cursor; one unit of fuel per iteration. *)
Fixpoint rep_loop (fuel : nat) (Combinator : combinator)
  (result : list (value atom)) (it : TokenIterator) : outcome result_type :=
  match fuel with
  | O => OutOfFuel
  | S fuel' =>
      res <- Combinator it ;;
      match res with
      | None => Returns (make_result (Container result) it)
      | Some (first, second) =>
          rep_loop fuel' Combinator (result ++ [first]) second
      end
  end.

(** [cmb_rep_fn_aux<Collection, Combinator>::cmb_rep_fn]. *)
Definition cmb_rep_fn (fuel : nat) (Combinator : combinator) : combinator :=
  fun it => rep_loop fuel Combinator [] it.

(** [res->first.empty()] on the container a repetition returns. *)
Definition empty (data : value atom) : bool :=
  match data with
  | Container [] => true
  | _ => false
  end.

(** [cmb_rep1_fn_aux<Collection, Combinator>::cmb_rep1_fn]: [res->first] is
    read without a test on [res]. *)
Definition cmb_rep1_fn (fuel : nat) (Combinator : combinator) : combinator :=
  fun it =>
    res <- cmb_rep_fn fuel Combinator it ;;
    match res with
    | Some (first, _) => if empty first then Returns failure else Returns res
    | None => Undefined
    end.

(** A mapper is either total (its result type is not a [maybe]) or partial
    ([is_maybe_v<transform_result>]); it is called through [std::apply] on
    the components of [as_tuple(data)]. *)
Inductive Mapper : Type :=
| total_fn (f : list (value atom) -> value atom)
| partial_fn (f : list (value atom) -> maybe (value atom)).

(** [cmb_map_fn_aux<Combinator, Mapper>::cmb_map_fn]. *)
Definition cmb_map_fn (Combinator : combinator) (M : Mapper) : combinator :=
  fun it =>
    match M with
    | partial_fn f =>
        res <- Combinator it ;;
        match res with
        | Some (first, second) =>
            match f (as_tuple first) with
            | Some transformed =>
                Returns (make_result (unwrap_tuple transformed) second)
            | None => cmb_fail_fn1 it
            end
        | None => cmb_fail_fn1 it
        end
    | total_fn f =>
        res <- Combinator it ;;
        match res with
        | Some (first, second) =>
            Returns (make_result (unwrap_tuple (f (as_tuple first))) second)
        | None => cmb_fail_fn1 it
        end
    end.

End engine.

Arguments mkIt {atom} stream pos.
Arguments begin_of {atom} s.
Arguments end_of {atom} s.
Arguments at_end {atom} it.
Arguments deref {atom} it.
Arguments next {atom} it.
Arguments consumed {atom} from to.
Arguments make_result {atom} data it.
Arguments failure {atom}.
Arguments cmb_succ_fn {atom} _.
Arguments cmb_fail_fn1 {atom} _.
Arguments cmb_one_fn {atom} _.
Arguments cmb_opt_fn {atom} Combinator _.
Arguments cmb_seq_fn {atom} First Rest _.
Arguments cmb_alt_fn {atom} First Rest _.
Arguments rep_loop {atom} fuel Combinator result it.
Arguments cmb_rep_fn {atom} fuel Combinator _.
Arguments empty {atom} data.
Arguments cmb_rep1_fn {atom} fuel Combinator _.
Arguments total_fn {atom} f.
Arguments partial_fn {atom} f.
Arguments cmb_map_fn {atom} Combinator M _.

End combinator_types.

(** ** The terms of the description

    What the description of the repetitions speaks of, written down so that
    the code can be compared with it. *)

Module described.
Import detail combinator_types.
Section repetition.
Variable atom : Type.

(** [run P c vs c']: from [c], [P] succeeds [length vs] times in a row, each
    time from the cursor the previous success returned, producing [vs] in
    order and reaching [c'], where [P] fails. *)
Inductive run (P : combinator atom) : TokenIterator atom ->
  list (value atom) -> TokenIterator atom -> Prop :=
| run_stop (c : TokenIterator atom) :
    P c = Returns failure -> run P c [] c
| run_step (c c1 c' : TokenIterator atom) (v : value atom)
    (vs : list (value atom)) :
    P c = Returns (make_result v c1) -> run P c1 vs c' -> run P c (v :: vs) c'.

(** The result of a repetition with the values [front] put before the ones
    it collected. *)
Definition with_prefix (front : list (value atom)) (r : result_type atom)
  : result_type atom :=
  match r with
  | Some (Container vs, c) => Some (Container (front ++ vs), c)
  | _ => r
  end.

(** What the description says [repeat1] is: apply [P] once, then [repeat0(P)]
    from the cursor [P] returned, the first value concatenated with the
    sequence of the others. *)
Definition repeat1_spec (fuel : nat) (P : combinator atom)
  : combinator atom :=
  fun c =>
    first <- P c ;;
    match first with
    | None => Returns failure
    | Some (v, c1) =>
        rest <- cmb_rep_fn fuel P c1 ;;
        Returns (with_prefix [v] rest)
    end.

End repetition.

Arguments run {atom} P _ _ _.
Arguments with_prefix {atom} front r.
Arguments repeat1_spec {atom} fuel P _.

End described.

(** ** A small grammar to run the combinators on *)

Module examples.
Import detail combinator_types.

(** A digit and an operator parser over tokens coded by numbers ([43] is the
    code of the plus sign): [one] mapped through a filter. *)
Definition is_digit (args : list (value nat)) : bool :=
  match args with
  | [Bare n] => n <=? 9
  | _ => false
  end.

Definition is_op (args : list (value nat)) : bool :=
  match args with
  | [Bare n] => n =? 43
  | _ => false
  end.

Definition digit : combinator nat :=
  cmb_map_fn cmb_one_fn (partial_fn (filter_impl is_digit)).

Definition operator : combinator nat :=
  cmb_map_fn cmb_one_fn (partial_fn (filter_impl is_op)).

(** The stream [1 + 2]. *)
Definition one_plus_two : list (token nat) := [Bare 1; Bare 43; Bare 2].

(** A total mapper of three arguments that adds the first and the third. *)
Definition sum_digits (args : list (value nat)) : value nat :=
  match args with
  | [Bare a; _; Bare b] => Bare (a + b)
  | _ => Tuple args
  end.

(** A total mapper that returns [std::make_tuple(7)]. *)
Definition seven_tuple (args : list (value nat)) : value nat :=
  Tuple [Bare 7].

End examples.

(** ** The operators and the subscript

    The thin layer of [combinator_values] and of the overloaded operators:
    each builds the combinator type of the same name. *)

Module operators.
Import detail combinator_types.
Section sugar.
Variable atom : Type.

(** [make_subscript_map(c, m)], reached through [cmb_wrap::operator[]]:
    [combinator_values::map(c, m)]. *)
Definition make_subscript_map (c : combinator atom) (m : Mapper atom)
  : combinator atom :=
  cmb_map_fn c m.

(** [operator~(c)]: [combinator_values::opt(c)]. *)
Definition opt_op (c : combinator atom) : combinator atom := cmb_opt_fn c.

(** [operator&(l, r)]: [combinator_values::seq(l, r)]. *)
Definition seq_op (l r : combinator atom) : combinator atom :=
  cmb_seq_fn l [r].

(** [operator|(l, r)]: [combinator_values::alt(l, r)]. *)
Definition alt_op (l r : combinator atom) : combinator atom :=
  cmb_alt_fn l [r].

(** Unary [operator*(a)]: [combinator_values::rep<rep_container_t>(a)]. *)
Definition rep_op (fuel : nat) (a : combinator atom) : combinator atom :=
  cmb_rep_fn fuel a.

(** Unary [operator+(a)]: [combinator_values::rep1<rep1_container_t>(a)]. *)
Definition rep1_op (fuel : nat) (a : combinator atom) : combinator atom :=
  cmb_rep1_fn fuel a.

End sugar.
End operators.

(** ** Contracts of parsers

    Properties a parser may have, under which the combinators obey further
    laws. *)

Module contracts.
Import detail combinator_types.
Section parsers.
Variable atom : Type.

(** Every value [P] succeeds with is in unwrapped form: it is no tuple with
    exactly one component. *)
Definition well_shaped (P : combinator atom) : Prop :=
  forall c v c', P c = Returns (make_result v c') -> is_single v = false.

(** [P] never returns the failure. *)
Definition never_fails (P : combinator atom) : Prop :=
  forall c, P c <> Returns failure.

(** A success of [P] stays on the stream and does not move the cursor
    backwards. *)
Definition monotone (P : combinator atom) : Prop :=
  forall c v c', P c = Returns (make_result v c') ->
    stream c' = stream c /\ pos c <= pos c'.

(** A success of [P] stays on the stream and consumes at least one token of
    it. *)
Definition advances (P : combinator atom) : Prop :=
  forall c v c', P c = Returns (make_result v c') ->
    stream c' = stream c /\ pos c < pos c' <= length (stream c).

End parsers.
End contracts.

(** ** A reader that knows where its stream ends *)

Module checked.
Import detail combinator_types.

(** A combinator written by the user of the library, as [cmb<Fn>] admits:
    it reads one token like [one], and fails at the end of the stream. *)
Definition one_checked (atom : Type) : combinator atom :=
  fun it =>
    match deref it with
    | Some tok => Returns (make_result tok (next it))
    | None => Returns failure
    end.

Arguments one_checked {atom} _.

End checked.

(** ** [combinator_comptime<Collection>]

    The compile-time engine computes with types.  A type is a term of
    [type]; a combinator is a template over the input type, that is a
    function from the input type to the [result_type] it derives from.  A
    template that is declared but not defined for its argument makes no
    program ([Undefined]); the depth of the instantiations of [rep] is
    counted by the fuel. *)

Module combinator_comptime.
Section comptime.
Variable atom : Type.

Inductive type : Type :=
| Plain (a : atom)
| Collection (Ts : list type)
| void
| map_fail.

(** [result_type<Succ, Res, Rem>]. *)
Record result_type : Type := mk_result {
  success : bool;
  result : type;
  remaining : type
}.

(** [success_result<Res, Rem>]. *)
Definition success_result (Res Rem : type) : result_type :=
  mk_result true Res Rem.

(** [fail_result]: [result_type<false, void, Collection<>>]. *)
Definition fail_result : result_type :=
  mk_result false void (Collection []).

(** [is_collection_v<T>]. *)
Definition is_collection (T : type) : bool :=
  match T with
  | Collection _ => true
  | _ => false
  end.

(** [concat_result<U, V>::type], by the four specialisations of
    [concat_result_impl]. *)
Definition concat_result (U V : type) : type :=
  match U, V with
  | Collection Us, Collection Vs => Collection (Us ++ Vs)
  | Collection Us, _ => Collection (Us ++ [V])
  | _, Collection Vs => Collection (U :: Vs)
  | _, _ => Collection [U; V]
  end.

(** [unwrap_single_t<T>]. *)
Fixpoint unwrap_single (T : type) : type :=
  match T with
  | Collection [T'] => unwrap_single T'
  | _ => T
  end.

(** [concat_result_t<U, V>]. *)
Definition concat_result_t (U V : type) : type :=
  unwrap_single (concat_result U V).

(** A combinator: [template <typename> typename P]. *)
Definition cmb : Type := type -> outcome result_type.

(** [one<In>], by the two specialisations of [one_impl]. *)
Definition one : cmb :=
  fun In =>
    match In with
    | Collection [] => Returns fail_result
    | Collection (First :: Rest) =>
        Returns (success_result First (Collection Rest))
    | _ => Undefined
    end.

(** [succ<Collection<Ts...>>]. *)
Definition succ : cmb :=
  fun In =>
    match In with
    | Collection Ts => Returns (success_result (Collection []) (Collection Ts))
    | _ => Undefined
    end.

(** [fail<Collection<Ts...>>]. *)
Definition fail : cmb :=
  fun In =>
    match In with
    | Collection Ts => Returns fail_result
    | _ => Undefined
    end.

(** [mbind2<P1, P2>::type<Collection<Ts...>>], through [call1] and
    [call2]. *)
Definition mbind2 (P1 P2 : cmb) : cmb :=
  fun In =>
    match In with
    | Collection Ts =>
        r1 <- P1 (Collection Ts) ;;
        if success r1 then
          r2 <- P2 (remaining r1) ;;
          if success r2 then
            Returns (success_result
                       (concat_result_t (result r1) (result r2))
                       (remaining r2))
          else Returns fail_result
        else Returns fail_result
    | _ => Undefined
    end.

(** [opt<P>::cmb<Collection<Ts...>>]. *)
Definition opt (P : cmb) : cmb :=
  fun In =>
    match In with
    | Collection Ts =>
        r <- P (Collection Ts) ;;
        if success r then Returns (success_result (result r) (remaining r))
        else Returns (success_result (Collection []) (Collection Ts))
    | _ => Undefined
    end.

(** [seq<P1, PRest...>::cmb]: [seq<P1, P2, PRest...>] is
    [seq<mbind2<P1, P2>::type, PRest...>], and [seq<P1>::cmb] is [P1] on a
    collection. *)
Fixpoint seq (P1 : cmb) (PRest : list cmb) : cmb :=
  match PRest with
  | [] =>
      fun In =>
        match In with
        | Collection Ts => P1 (Collection Ts)
        | _ => Undefined
        end
  | P2 :: PRest' => seq (mbind2 P1 P2) PRest'
  end.

(** [alt<PFirst, PRest...>::cmb<Collection<Ts...>>]. *)
Fixpoint alt (PFirst : cmb) (PRest : list cmb) : cmb :=
  fun In =>
    match In with
    | Collection Ts =>
        match PRest with
        | [] => PFirst (Collection Ts)
        | PNext :: PRest' =>
            r <- PFirst (Collection Ts) ;;
            if success r then Returns (success_result (result r) (remaining r))
            else alt PNext PRest' (Collection Ts)
        end
    | _ => Undefined
    end.

(** [rep<P>::call<Succ, OldRes, OldRem, NewRes, NewRem>]: each
    instantiation with [Succ = true] instantiates [P<NewRem>] and the next
    [call]. *)
Fixpoint rep_call (fuel : nat) (P : cmb) (Succ : bool)
  (OldRes OldRem NewRes NewRem : type) : outcome result_type :=
  if Succ then
    match fuel with
    | O => OutOfFuel
    | S fuel' =>
        r <- P NewRem ;;
        rep_call fuel' P (success r) NewRes NewRem
          (concat_result_t NewRes (result r)) (remaining r)
    end
  else Returns (success_result (unwrap_single OldRes) OldRem).

(** [rep<P>::cmb<Collection<Ts...>>]. *)
Definition rep (fuel : nat) (P : cmb) : cmb :=
  fun In =>
    match In with
    | Collection Ts =>
        rep_call fuel P true (Collection []) (Collection Ts)
          (Collection []) (Collection Ts)
    | _ => Undefined
    end.

(** [rep1<P>::cmb<Collection<Ts...>>]:
    [seq<P, rep<P>::cmb>::cmb<Collection<Ts...>>]. *)
Definition rep1 (fuel : nat) (P : cmb) : cmb :=
  fun In =>
    match In with
    | Collection Ts => seq P [rep fuel P] (Collection Ts)
    | _ => Undefined
    end.

(** [map<P, M>::apply_map_t<Res>]: the mapper [M] is a template over a pack
    of types, given by the type [M<Ts...>::type] it computes. *)
Definition apply_map (M : list type -> type) (Res : type) : type :=
  match Res with
  | Collection Ts => M Ts
  | _ => M [Res]
  end.

(** [map<P, M>::applied_result<Res, Rem>]. *)
Definition applied_result (Res Rem : type) : result_type :=
  match Res with
  | map_fail => fail_result
  | _ => success_result (unwrap_single Res) Rem
  end.

(** [map<P, M>::cmb<Collection<Ts...>>]. *)
Definition map (P : cmb) (M : list type -> type) : cmb :=
  fun In =>
    match In with
    | Collection Ts =>
        r <- P (Collection Ts) ;;
        if success r then
          Returns (applied_result (apply_map M (result r)) (remaining r))
        else Returns fail_result
    | _ => Undefined
    end.

(** [filter<Pred>::fn<Ts...>::type]. *)
Definition filter (Pred : list type -> bool) (Ts : list type) : type :=
  if Pred Ts then unwrap_single (Collection Ts) else map_fail.

End comptime.

Arguments Plain {atom} a.
Arguments Collection {atom} Ts.
Arguments void {atom}.
Arguments map_fail {atom}.
Arguments mk_result {atom} success result remaining.
Arguments fail_result {atom}.
Arguments one {atom} _.
Arguments succ {atom} _.
Arguments fail {atom} _.

End combinator_comptime.

(** ** The two engines side by side *)

Module siblings.
Import detail.
Section erasure.
Variable atom : Type.

(** The leaves of a compile-time type, as run-time atoms. *)
Inductive leaf : Type :=
| leaf_plain (a : atom)
| leaf_void
| leaf_map_fail.

(** The run-time shape of a compile-time type: a [Collection] is a tuple. *)
Fixpoint erase (T : combinator_comptime.type atom) : value leaf :=
  match T with
  | combinator_comptime.Plain a => Bare (leaf_plain a)
  | combinator_comptime.Collection Ts => Tuple (List.map erase Ts)
  | combinator_comptime.void => Bare leaf_void
  | combinator_comptime.map_fail => Bare leaf_map_fail
  end.

(** A grammar written with [succ], [fail], [one], and [seq] and [alt] of one
    parser or more, which both engines offer under the same names. *)
Inductive grammar : Type :=
| g_succ
| g_fail
| g_one
| g_seq (g : grammar) (gs : list grammar)
| g_alt (g : grammar) (gs : list grammar).

(** The grammar as a combinator of [combinator_types]. *)
Fixpoint runtime_of (g : grammar) : combinator_types.combinator leaf :=
  match g with
  | g_succ => combinator_types.cmb_succ_fn
  | g_fail => combinator_types.cmb_fail_fn1
  | g_one => combinator_types.cmb_one_fn
  | g_seq g gs =>
      combinator_types.cmb_seq_fn (runtime_of g) (List.map runtime_of gs)
  | g_alt g gs =>
      combinator_types.cmb_alt_fn (runtime_of g) (List.map runtime_of gs)
  end.

(** The grammar as a combinator of [combinator_comptime]. *)
Fixpoint comptime_of (g : grammar) : combinator_comptime.cmb atom :=
  match g with
  | g_succ => combinator_comptime.succ
  | g_fail => combinator_comptime.fail
  | g_one => combinator_comptime.one
  | g_seq g gs =>
      combinator_comptime.seq (comptime_of g) (List.map comptime_of gs)
  | g_alt g gs =>
      combinator_comptime.alt (comptime_of g) (List.map comptime_of gs)
  end.

(** The compile-time result [r'] says what the run-time result [r] says,
    for the input [Ts]: both fail, or both succeed with the same shape and
    the same tokens left. *)
Definition same_result (Ts : list (combinator_comptime.type atom))
  (r : combinator_types.result_type leaf)
  (r' : combinator_comptime.result_type atom) : Prop :=
  match r with
  | None => combinator_comptime.success r' = false
  | Some (v, c') =>
      combinator_comptime.success r' = true /\
      erase (combinator_comptime.result r') = v /\
      combinator_types.stream c' = List.map erase Ts /\
      combinator_types.pos c' <= length Ts /\
      combinator_comptime.remaining r'
        = combinator_comptime.Collection (skipn (combinator_types.pos c') Ts)
  end.

(** The compile-time combinator [P] agrees with the run-time combinator [R]
    on the input [Ts], from every offset: where [R] returns, [P] gives a
    result that says the same. *)
Definition agrees (Ts : list (combinator_comptime.type atom))
  (R : combinator_types.combinator leaf) (P : combinator_comptime.cmb atom)
  : Prop :=
  forall k r,
    k <= length Ts ->
    R (combinator_types.mkIt (List.map erase Ts) k) = Returns r ->
    exists r',
      P (combinator_comptime.Collection (skipn k Ts)) = Returns r' /\
      same_result Ts r r'.

(** On the stream [s], the run-time combinator [R] succeeds only with values
    in unwrapped form and with cursors of [s]. *)
Definition shaped_on (s : list (value leaf))
  (R : combinator_types.combinator leaf) : Prop :=
  forall c v c',
    combinator_types.stream c = s ->
    R c = Returns (combinator_types.make_result v c') ->
    is_single v = false /\ combinator_types.stream c' = s.

(** No token type is a collection of exactly one type. *)
Definition plain_tokens (Ts : list (combinator_comptime.type atom)) : Prop :=
  Forall (fun T => is_single (erase T) = false) Ts.

End erasure.

Arguments leaf_void {atom}.
Arguments leaf_map_fail {atom}.
Arguments runtime_of {atom} g _.
Arguments comptime_of {atom} g _.
Arguments plain_tokens {atom} Ts.

End siblings.

Import detail combinator_types described examples.
Import operators contracts checked.

(** * Properties *)

(** ** Value shaping *)

Section shaping_facts.
Variable atom : Type.
Implicit Types (v a b : value atom) (l : list (value atom)).

Lemma unwrap_tuple_fixed v : is_single v = false -> unwrap_tuple v = v.
Proof.
  destruct v as [x | [| t [| t' ts]] | o | vs]; simpl; intros H;
    solve [reflexivity | discriminate H].
Qed.

Lemma unwrap_tuple_not_single : forall v, is_single (unwrap_tuple v) = false.
Proof.
  fix IH 1.
  intros [x | [| t [| t' ts]] | o | vs]; simpl; try reflexivity.
  apply IH.
Qed.

Lemma unwrap_tuple_idem v : unwrap_tuple (unwrap_tuple v) = unwrap_tuple v.
Proof. apply unwrap_tuple_fixed, unwrap_tuple_not_single. Qed.

Lemma unwrap_tuple_wide l : length l <> 1 -> unwrap_tuple (Tuple l) = Tuple l.
Proof.
  destruct l as [| x [| y l']]; simpl; intros H; try reflexivity.
  now elim H.
Qed.

Lemma concat_one v : concat [v] = unwrap_tuple v.
Proof.
  unfold concat, tuple_cat; simpl. rewrite app_nil_r.
  destruct v; reflexivity.
Qed.

Lemma concat_pair a b :
  concat [a; b] = unwrap_tuple (Tuple (as_tuple a ++ as_tuple b)).
Proof. unfold concat, tuple_cat; simpl. now rewrite app_nil_r. Qed.

Lemma as_tuple_bare v : is_tuple v = false -> as_tuple v = [v].
Proof. destruct v; simpl; intros H; solve [reflexivity | discriminate H]. Qed.

Lemma arity_one_not_single v :
  is_single v = false -> arity v = 1 -> as_tuple v = [v].
Proof.
  unfold arity.
  destruct v as [x | [| t [| t' ts]] | o | vs]; simpl; intros Hs Ha;
    solve [reflexivity | discriminate Hs | discriminate Ha].
Qed.

Lemma concat_pair_wide a b :
  arity a + arity b <> 1 -> concat [a; b] = Tuple (as_tuple a ++ as_tuple b).
Proof.
  intros H. rewrite concat_pair. apply unwrap_tuple_wide.
  rewrite length_app. exact H.
Qed.

Lemma concat_pair_normal a b :
  is_single a = false -> is_single b = false ->
  as_tuple (concat [a; b]) = as_tuple a ++ as_tuple b.
Proof.
  intros Ha Hb.
  destruct (Nat.eq_dec (arity a + arity b) 1) as [E | E].
  - rewrite concat_pair.
    destruct (arity a) as [| m] eqn:Em.
    + simpl in E.
      pose proof (arity_one_not_single b Hb E) as Eb.
      unfold arity in Em. apply length_zero_iff_nil in Em.
      rewrite Em, Eb. simpl. rewrite (unwrap_tuple_fixed b Hb). exact Eb.
    + assert (m = 0 /\ arity b = 0) as [-> Eb] by lia.
      pose proof (arity_one_not_single a Ha Em) as Ea.
      unfold arity in Eb. apply length_zero_iff_nil in Eb.
      rewrite Ea, Eb. simpl. rewrite (unwrap_tuple_fixed a Ha). exact Ea.
  - rewrite (concat_pair_wide a b E). reflexivity.
Qed.

End shaping_facts.

Lemma concat_in_context (atom : Type) (v : value atom)
  (before after : list (value atom)) :
  is_tuple v = false ->
  concat (before ++ Tuple [v] :: after) = concat (before ++ v :: after).
Proof.
  intros Hv. unfold concat, tuple_cat. rewrite !map_app. simpl.
  now rewrite (as_tuple_bare v Hv).
Qed.

(** C8, as the code has it.  (a) Auto-unwrap: a single-component tuple
    unwraps to what its component unwraps to, which is the component itself
    unless that is again a single-component tuple; what [unwrap_tuple]
    returns is never a single-component tuple, and [concat] of one value is
    its unwrapping.  When the component is not itself a tuple, the
    single-component tuple and the bare component cannot be told apart: they
    have the same components for [as_tuple], hence give a mapper the same
    arguments, and [concat] gives the same result with the one as with the
    other, in any position among any other values.  (b) Concatenation:
    [concat] of [a] and [b] is the unwrapping of the tuple of the components
    of [a] followed by those of [b]; when the arities do not add up to 1 the
    result is that very tuple, of arity [arity a + arity b]; and when neither
    operand is a single-component tuple the result has the components of [a]
    followed by those of [b] as its own, its arity is the sum, and it is
    again no single-component tuple. *)
Theorem composite_shaping_invariants (atom : Type) :
  (forall v : value atom, unwrap_tuple (Tuple [v]) = unwrap_tuple v) /\
  (forall v : value atom, is_single v = false -> unwrap_tuple (Tuple [v]) = v) /\
  (forall v : value atom, is_tuple v = false -> as_tuple (Tuple [v]) = as_tuple v) /\
  (forall v : value atom, is_single (unwrap_tuple v) = false) /\
  (forall v : value atom, concat [v] = unwrap_tuple v) /\
  (forall a b : value atom,
      concat [a; b] = unwrap_tuple (Tuple (as_tuple a ++ as_tuple b))) /\
  (forall a b : value atom,
      arity a + arity b <> 1 ->
      concat [a; b] = Tuple (as_tuple a ++ as_tuple b) /\
      arity (concat [a; b]) = arity a + arity b) /\
  (forall a b : value atom,
      is_single a = false -> is_single b = false ->
      as_tuple (concat [a; b]) = as_tuple a ++ as_tuple b /\
      arity (concat [a; b]) = arity a + arity b /\
      is_single (concat [a; b]) = false) /\
  (forall (v : value atom) (before after : list (value atom)),
      is_tuple v = false ->
      concat (before ++ Tuple [v] :: after) = concat (before ++ v :: after)).
Proof.
  split; [reflexivity |].
  split; [intros v Hv; simpl; now apply unwrap_tuple_fixed |].
  split; [intros v Hv; simpl; symmetry; now apply as_tuple_bare |].
  split; [apply unwrap_tuple_not_single |].
  split; [apply concat_one |].
  split; [apply concat_pair |].
  split; [| split].
  - intros a b Hmn. rewrite (concat_pair_wide a b Hmn). split.
    + reflexivity.
    + unfold arity at 1. simpl. now rewrite length_app.
  - intros a b Ha Hb. split; [| split].
    + now apply concat_pair_normal.
    + unfold arity at 1. rewrite (concat_pair_normal a b Ha Hb).
      now rewrite length_app.
    + rewrite concat_pair. apply unwrap_tuple_not_single.
  - intros v before after Hv. now apply concat_in_context.
Qed.

(** The invariants at work on [(1, 2)] concatenated with the bare [3], and
    on the bare [3] against the tuple that holds just [3]. *)
Lemma composite_shaping_invariants_witness :
  as_tuple (concat [Tuple [Bare 1; Bare 2]; Bare 3]) = [Bare 1; Bare 2; Bare 3] /\
  arity (concat [Tuple [Bare 1; Bare 2]; Bare 3]) = 2 + 1 /\
  concat [Tuple [Bare 1; Bare 2]; Tuple [Bare 3]]
    = concat [Tuple [Bare 1; Bare 2]; Bare 3].
Proof.
  destruct (composite_shaping_invariants nat)
    as (_ & _ & _ & _ & _ & _ & _ & H & Hctx).
  destruct (H (Tuple [Bare 1; Bare 2]) (Bare 3) eq_refl eq_refl) as (Hc & Ha & _).
  split; [exact Hc | split; [exact Ha |]].
  apply (Hctx (Bare 3) [Tuple [Bare 1; Bare 2]] [] eq_refl).
Defined.

(** C8 as stated fails, in both parts.  (a) The tuple whose only component
    is the pair [(1, 2)] is told from the bare pair: [as_tuple] gives one
    component for the one and two for the other, so a mapper gets one
    argument or two, and [concat] with [3] nests the pair in the one case and
    flattens it in the other.  (b) The empty tuple has arity 0, the tuple
    whose only component is the pair [(1, 2)] has arity 1, and their
    concatenation is the pair itself, of arity 2. *)
Lemma concat_arity_counterexample :
  arity (Tuple (@nil (value nat))) = 0 /\
  arity (Tuple [Tuple [Bare 1; Bare 2]]) = 1 /\
  concat [Tuple []; Tuple [Tuple [Bare 1; Bare 2]]] = Tuple [Bare 1; Bare 2] /\
  arity (concat [Tuple []; Tuple [Tuple [Bare 1; Bare 2]]]) <> 0 + 1 /\
  as_tuple (Tuple [Tuple [Bare 1; Bare 2]]) <> as_tuple (Tuple [Bare 1; Bare 2]) /\
  concat [Tuple [Tuple [Bare 1; Bare 2]]; Bare 3]
    = Tuple [Tuple [Bare 1; Bare 2]; Bare 3] /\
  concat [Tuple [Bare 1; Bare 2]; Bare 3] = Tuple [Bare 1; Bare 2; Bare 3] /\
  concat [Tuple [Tuple [Bare 1; Bare 2]]; Bare 3]
    <> concat [Tuple [Bare 1; Bare 2]; Bare 3].
Proof. repeat split; discriminate. Qed.

(** ** Folds *)

Section fold_facts.
Variables A B : Type.

Lemma for_range_fold_left (body : A -> B -> A) (range : list B) (acc : A) :
  for_range body range acc = fold_left body range acc.
Proof.
  revert acc. induction range as [| e range IH]; intros acc; simpl.
  - reflexivity.
  - apply IH.
Qed.

Lemma for_range_app (body : A -> B -> A) (r1 r2 : list B) (acc : A) :
  for_range body (r1 ++ r2) acc = for_range body r2 (for_range body r1 acc).
Proof.
  revert acc. induction r1 as [| e r1 IH]; intros acc; simpl.
  - reflexivity.
  - apply IH.
Qed.

(** C9: [foldl(op)] on [(i, s)] is the left-associative accumulation over
    [s] in order, the accumulator being updated to [op accumulator e] at each
    element; [foldr(op)] on [(s, i)] is the right-associative accumulation,
    which takes the elements from the back.  Both are total functions of
    their two arguments alone: no cursor goes in or comes out, and there is
    no failing result. *)
Theorem fold_impl_accumulates (opl : A -> B -> A) (opr : B -> A -> A)
  (i : A) (s : list B) :
  foldl_impl opl i s = fold_left opl s i /\
  (forall e, foldl_impl opl i (s ++ [e]) = opl (foldl_impl opl i s) e) /\
  foldr_impl opr s i = fold_right opr i s /\
  (forall e, foldr_impl opr (s ++ [e]) i = foldr_impl opr s (opr e i)) /\
  (forall e, foldr_impl opr (e :: s) i = opr e (foldr_impl opr s i)).
Proof.
  unfold foldl_impl, foldr_impl. repeat split.
  - apply for_range_fold_left.
  - intros e. now rewrite for_range_app.
  - rewrite for_range_fold_left, <- fold_left_rev_right, rev_involutive.
    reflexivity.
  - intros e. now rewrite rev_app_distr.
  - intros e. simpl. now rewrite for_range_app.
Qed.

End fold_facts.

(** ** Combinators *)

Section base_facts.
Variable atom : Type.
Implicit Types (P Q : combinator atom) (c : TokenIterator atom)
  (v : value atom) (r : result_type atom).

Lemma bind_returns (A B : Type) (m : outcome A) (k : A -> outcome B) (b : B) :
  bind m k = Returns b <-> exists a, m = Returns a /\ k a = Returns b.
Proof.
  destruct m as [a | |]; simpl; split.
  - intros H. now exists a.
  - now intros (a' & [= ->] & H).
  - discriminate.
  - now intros (a' & [=] & _).
  - discriminate.
  - now intros (a' & [=] & _).
Qed.

Lemma deref_none_iff c : deref c = None <-> length (stream c) <= pos c.
Proof. unfold deref. apply nth_error_None. Qed.

Lemma at_end_end_of (s : list (token atom)) : at_end (end_of s).
Proof. reflexivity. Qed.

Lemma cmb_one_fn_at_end c : at_end c -> cmb_one_fn c = Undefined.
Proof.
  unfold at_end, cmb_one_fn. intros H.
  assert (E : deref c = None) by (apply deref_none_iff; lia).
  now rewrite E.
Qed.

Lemma cmb_one_fn_in_range c :
  pos c < length (stream c) ->
  exists tok,
    deref c = Some tok /\
    cmb_one_fn c = Returns (make_result tok (next c)) /\
    pos (next c) = pos c + 1 /\
    stream (next c) = stream c /\
    consumed c (next c) = 1%Z.
Proof.
  intros H. unfold cmb_one_fn, consumed.
  destruct (deref c) as [tok |] eqn:E.
  - exists tok. unfold next; cbn [pos stream]. repeat split; lia || reflexivity.
  - apply deref_none_iff in E. lia.
Qed.

(** C1 on the code: [cmb_one_fn] never tests its cursor.  At the end
    iterator of any stream it dereferences the iterator, which is undefined,
    and at no cursor at all does it return the failure; at a cursor that does
    stand on a token it returns that token and the cursor one step on. *)
Theorem cmb_one_fn_no_end_test :
  (forall s : list (token atom), cmb_one_fn (end_of s) = Undefined) /\
  (forall c, cmb_one_fn c <> Returns failure) /\
  (forall s : list (token atom), cmb_one_fn (end_of s) <> Returns failure) /\
  (forall (before after : list (token atom)) (tok : token atom),
     cmb_one_fn (mkIt (before ++ tok :: after) (length before))
       = Returns (make_result tok
                    (mkIt (before ++ tok :: after) (length before + 1)))).
Proof.
  assert (Hnf : forall c, cmb_one_fn c <> Returns failure).
  { intros c. unfold cmb_one_fn. destruct (deref c); discriminate. }
  split; [| split; [| split]].
  - intros s. apply cmb_one_fn_at_end, at_end_end_of.
  - exact Hnf.
  - intros s. apply Hnf.
  - intros before after tok. unfold cmb_one_fn, deref, next. cbn [stream pos].
    rewrite nth_error_app2, Nat.sub_diag by lia. simpl.
    now rewrite Nat.add_1_r.
Qed.

(** C10: [succeed] returns, at every cursor, the success whose value is the
    empty tuple and whose next cursor is the cursor it was given, so it
    consumes nothing; [fail] returns the failure at every cursor. *)
Theorem cmb_succ_fail_fn c :
  cmb_succ_fn c = Returns (make_result (Tuple []) c) /\
  consumed c c = 0%Z /\
  cmb_fail_fn1 c = Returns failure.
Proof. unfold consumed. repeat split. lia. Qed.

(** C4: [optional(P)] never returns the failure.  Whenever [P] returns at
    [c], [optional(P)] returns a success whose value is an optional: the
    present value of [P] with [P]'s next cursor when [P] succeeds, the absent
    value with the cursor [c] itself when [P] fails.  The optional is kept as
    it is by the unwrapping and stands as one component in a
    concatenation. *)
Theorem cmb_opt_fn_always_succeeds P c :
  cmb_opt_fn P c <> Returns failure /\
  (forall v c', P c = Returns (make_result v c') ->
     cmb_opt_fn P c = Returns (make_result (Optional (Some v)) c')) /\
  (P c = Returns failure ->
     cmb_opt_fn P c = Returns (make_result (Optional None) c)) /\
  (forall r, P c = Returns r ->
     exists o c', cmb_opt_fn P c = Returns (make_result (Optional o) c')) /\
  (forall r, cmb_opt_fn P c = Returns r ->
     exists o c', r = make_result (Optional o) c' /\
       unwrap_tuple (Optional o) = Optional o /\
       as_tuple (Optional o) = [Optional o]).
Proof.
  unfold cmb_opt_fn, make_result, failure. repeat split.
  - destruct (P c) as [[[d it] |] | |]; simpl; discriminate.
  - intros v c' H. now rewrite H.
  - intros H. now rewrite H.
  - intros r H. rewrite H. destruct r as [[d it] |]; simpl; eauto.
  - intros r H. destruct (P c) as [[[d it] |] | |]; simpl in H;
      try discriminate; injection H as <-; eauto.
Qed.

End base_facts.

(** [optional] on the stream [1 + 2]: present where the parser succeeds,
    absent, with nothing consumed, where it fails. *)
Lemma cmb_opt_fn_always_succeeds_witness :
  let s : list (token nat) := [Bare 1; Bare 43; Bare 2] in
  cmb_opt_fn cmb_one_fn (mkIt s 0)
    = Returns (make_result (Optional (Some (Bare 1))) (mkIt s 1)) /\
  cmb_opt_fn cmb_fail_fn1 (mkIt s 1)
    = Returns (make_result (Optional None) (mkIt s 1)).
Proof.
  intros s. split.
  - apply (proj1 (proj2 (cmb_opt_fn_always_succeeds cmb_one_fn (mkIt s 0)))).
    reflexivity.
  - apply (proj1 (proj2 (proj2
      (cmb_opt_fn_always_succeeds cmb_fail_fn1 (mkIt s 1))))).
    reflexivity.
Defined.

Section sequence_facts.
Variable atom : Type.
Implicit Types (P Q : combinator atom) (c : TokenIterator atom)
  (v d : value atom) (r : result_type atom).

Lemma cmb_seq_fn_one P c : cmb_seq_fn P [] c = P c.
Proof. reflexivity. Qed.

Lemma cmb_seq_fn_nested P Q (Rest : list (combinator atom)) c :
  cmb_seq_fn P (Q :: Rest) c = cmb_seq_fn P [cmb_seq_fn Q Rest] c.
Proof. reflexivity. Qed.




End sequence_facts.


Section alternative_facts.
Variable atom : Type.
Implicit Types (P Q First : combinator atom) (Rest : list (combinator atom))
  (c : TokenIterator atom) (v d : value atom).

Lemma cmb_alt_fn_success First Rest c d c' :
  cmb_alt_fn First Rest c = Returns (make_result d c') <->
  exists i P,
    nth_error (First :: Rest) i = Some P /\
    P c = Returns (make_result d c') /\
    forall j Q, j < i -> nth_error (First :: Rest) j = Some Q ->
                Q c = Returns failure.
Proof.
  unfold make_result, failure.
  revert First. induction Rest as [| Second Rest' IH]; intros First.
  - simpl. split.
    + intros H. exists 0, First. repeat split; trivial.
      intros j Q Hj. lia.
    + intros (i & P & Hi & HP & _).
      destruct i as [| i]; simpl in Hi.
      * now injection Hi as <-.
      * destruct i; discriminate Hi.
  - cbn [cmb_alt_fn]. split.
    + intros H.
      destruct (First c) as [[res |] | |] eqn:E1; simpl in H;
        try discriminate.
      * exists 0, First. repeat split; trivial.
        -- now rewrite <- H.
        -- intros j Q Hj. lia.
      * apply IH in H. destruct H as (i & P & Hi & HP & Hlt).
        exists (S i), P. repeat split; trivial.
        intros [| j] Q Hj HQ; simpl in HQ.
        -- now injection HQ as <-.
        -- apply (Hlt j Q); [lia | exact HQ].
    + intros (i & P & Hi & HP & Hlt).
      destruct i as [| i]; simpl in Hi.
      * injection Hi as <-. rewrite HP. reflexivity.
      * rewrite (Hlt 0 First); [| lia | reflexivity]. simpl.
        apply IH. exists i, P. repeat split; trivial.
        intros j Q Hj HQ. apply (Hlt (S j) Q); [lia | exact HQ].
Qed.

Lemma cmb_alt_fn_failure First Rest c :
  cmb_alt_fn First Rest c = Returns failure <->
  forall Q, In Q (First :: Rest) -> Q c = Returns failure.
Proof.
  unfold failure.
  revert First. induction Rest as [| Second Rest' IH]; intros First.
  - simpl. split.
    + intros H Q [<- | []]. exact H.
    + intros H. apply H. now left.
  - cbn [cmb_alt_fn]. split.
    + intros H.
      destruct (First c) as [[res |] | |] eqn:E1; simpl in H;
        try discriminate.
      intros Q [<- | HQ]; [exact E1 |].
      apply (proj1 (IH Second) H Q HQ).
    + intros H. rewrite (H First (or_introl eq_refl)). simpl.
      apply IH. intros Q HQ. apply H. now right.
Qed.

(** C3: [alternative(P1..Pn)] at [c] runs its branches in order, each on the
    cursor [c] it was given.  It returns a success exactly when some branch
    succeeds at [c] while every branch before it fails at [c], and the
    success is that branch's own: same value, same next cursor.  It fails
    exactly when every branch fails at [c]. *)
Theorem cmb_alt_fn_first_success First Rest c :
  (forall d c',
     cmb_alt_fn First Rest c = Returns (make_result d c') <->
     exists i P,
       nth_error (First :: Rest) i = Some P /\
       P c = Returns (make_result d c') /\
       forall j Q, j < i -> nth_error (First :: Rest) j = Some Q ->
                   Q c = Returns failure) /\
  (cmb_alt_fn First Rest c = Returns failure <->
     forall Q, In Q (First :: Rest) -> Q c = Returns failure).
Proof.
  split.
  - intros d c'. apply cmb_alt_fn_success.
  - apply cmb_alt_fn_failure.
Qed.

End alternative_facts.

(** [alternative(digit, operator)] at the operator of [1 + 2]: the first
    branch rejects it, the second returns it with the cursor at index 2. *)
Lemma cmb_alt_fn_first_success_witness :
  cmb_alt_fn digit [operator] (mkIt one_plus_two 1)
    = Returns (make_result (Bare 43) (mkIt one_plus_two 2)).
Proof.
  apply (proj1 (cmb_alt_fn_first_success digit [operator]
                  (mkIt one_plus_two 1))).
  exists 1, operator. repeat split.
  intros [| j] Q Hj HQ; [| lia].
  injection HQ as <-. reflexivity.
Defined.

Section repetition_facts.
Variable atom : Type.
Implicit Types (P : combinator atom) (c : TokenIterator atom)
  (v d : value atom) (vs acc : list (value atom)) (r : result_type atom).

Lemma rep_loop_run P c vs c' :
  run P c vs c' ->
  forall acc fuel, length vs < fuel ->
    rep_loop fuel P acc c = Returns (make_result (Container (acc ++ vs)) c').
Proof.
  induction 1 as [c Hc | c c1 c' v vs Hc Hrun IH]; intros acc fuel Hfuel;
    (destruct fuel as [| fuel]; [simpl in Hfuel; lia |]); simpl; rewrite Hc;
    simpl.
  - now rewrite app_nil_r.
  - rewrite IH by (simpl in Hfuel; lia).
    now rewrite <- app_assoc.
Qed.

Lemma rep_loop_returns P fuel :
  forall acc c r,
    rep_loop fuel P acc c = Returns r ->
    exists vs c',
      r = make_result (Container (acc ++ vs)) c' /\ run P c vs c' /\
      length vs < fuel.
Proof.
  induction fuel as [| fuel IH]; intros acc c r H; simpl in H.
  - discriminate.
  - destruct (P c) as [[[v c1] |] | |] eqn:Hc; simpl in H; try discriminate.
    + apply IH in H. destruct H as (vs & c' & -> & Hrun & Hlen).
      exists (v :: vs), c'. repeat split.
      * now rewrite <- app_assoc.
      * now apply run_step with c1.
      * simpl. lia.
    + injection H as <-. exists [], c. repeat split.
      * now rewrite app_nil_r.
      * now apply run_stop.
      * simpl. lia.
Qed.

Lemma rep_loop_acc P fuel :
  forall acc c,
    rep_loop fuel P acc c =
    (r <- rep_loop fuel P [] c ;; Returns (with_prefix acc r)).
Proof.
  induction fuel as [| fuel IH]; intros acc c; simpl.
  - reflexivity.
  - destruct (P c) as [[[v c1] |] | |] eqn:Hc; simpl; try reflexivity.
    + rewrite (IH (acc ++ [v])), (IH [v]).
      destruct (rep_loop fuel P [] c1) as [r | |] eqn:E; simpl;
        try reflexivity.
      apply rep_loop_returns in E. destruct E as (vs & c' & -> & _).
      simpl. now rewrite <- app_assoc.
    + now rewrite app_nil_r.
Qed.

Lemma run_deterministic P c vs1 c1 :
  run P c vs1 c1 -> forall vs2 c2, run P c vs2 c2 -> vs1 = vs2 /\ c1 = c2.
Proof.
  induction 1 as [c Hc | c ca c1 v vs1 Hc Hrun IH]; intros vs2 c2 H2;
    inversion H2 as [c0 Hc2 | c0 cb c0' w ws Hc2 Hrun2]; subst;
    rewrite Hc in Hc2; try discriminate.
  - now split.
  - injection Hc2 as <- <-.
    destruct (IH _ _ Hrun2) as [-> ->]. now split.
Qed.

(** C5, as the code has it: [repeat0(P)] never returns the failure, whatever
    the fuel.  When the successes of [P] from [c] on come to an end, that is
    when [P] succeeds some number of times in a row, each time from the
    cursor of the success before, and then fails, the loop returns, as soon
    as the fuel exceeds that number, the success whose sequence holds the
    values of exactly these applications in order and whose cursor is the one
    after the last of them, which is [c] when there is none.  Whatever the
    loop returns is of this form, and [P] and [c] determine the run.  (When
    the successes never come to an end the loop does not return.) *)
Theorem cmb_rep_fn_maximal_run P c :
  (forall fuel, cmb_rep_fn fuel P c <> Returns failure) /\
  (forall vs c', run P c vs c' ->
     forall fuel, length vs < fuel ->
       cmb_rep_fn fuel P c = Returns (make_result (Container vs) c')) /\
  (P c = Returns failure ->
     forall fuel, 0 < fuel ->
       cmb_rep_fn fuel P c = Returns (make_result (Container []) c)) /\
  (forall fuel r, cmb_rep_fn fuel P c = Returns r ->
     exists vs c', r = make_result (Container vs) c' /\ run P c vs c') /\
  (forall vs1 c1 vs2 c2,
     run P c vs1 c1 -> run P c vs2 c2 -> vs1 = vs2 /\ c1 = c2).
Proof.
  unfold cmb_rep_fn. split; [| split; [| split; [| split]]].
  - intros fuel H. apply rep_loop_returns in H.
    destruct H as (vs & c' & H & _). discriminate H.
  - intros vs c' Hrun fuel Hfuel.
    apply (rep_loop_run Hrun [] Hfuel).
  - intros Hc fuel Hfuel.
    apply (rep_loop_run (run_stop P c Hc) [] Hfuel).
  - intros fuel r H. apply rep_loop_returns in H.
    destruct H as (vs & c' & -> & Hrun & _). now exists vs, c'.
  - intros vs1 c1 vs2 c2 H1 H2. apply (run_deterministic H1 H2).
Qed.

(** C6: [repeat1(P)] is [P] applied once followed by [repeat0(P)] from the
    cursor [P] returned, with the results concatenated: the two agree as
    functions, on every outcome.  [repeat1(P)] returns the failure exactly
    when [P] fails at [c]; a success of [repeat1(P)] is a sequence of at
    least one value and is the very result of [repeat0(P)] at [c]; and every
    result of [repeat0(P)] at [c] with at least one value is the result of
    [repeat1(P)]. *)
Theorem cmb_rep1_fn_is_one_then_rep P c :
  (forall fuel, cmb_rep1_fn (S fuel) P c = repeat1_spec fuel P c) /\
  (forall fuel, cmb_rep1_fn (S fuel) P c = Returns failure <->
                P c = Returns failure) /\
  (forall fuel, cmb_rep1_fn fuel P c = Returns failure ->
                P c = Returns failure) /\
  (forall fuel d c', cmb_rep1_fn fuel P c = Returns (make_result d c') ->
     exists vs, d = Container vs /\ 1 <= length vs /\
       cmb_rep_fn fuel P c = Returns (make_result (Container vs) c')) /\
  (forall fuel vs c',
     cmb_rep_fn fuel P c = Returns (make_result (Container vs) c') ->
     1 <= length vs ->
     cmb_rep1_fn fuel P c = Returns (make_result (Container vs) c')).
Proof.
  assert (Hspec : forall fuel,
             cmb_rep1_fn (S fuel) P c = repeat1_spec fuel P c).
  { intros fuel. unfold cmb_rep1_fn, repeat1_spec, cmb_rep_fn. simpl.
    destruct (P c) as [[[v c1] |] | |] eqn:Hc; simpl; try reflexivity.
    rewrite (rep_loop_acc P fuel [v] c1).
    destruct (rep_loop fuel P [] c1) as [r | |] eqn:E; simpl;
      try reflexivity.
    apply rep_loop_returns in E. destruct E as (vs & c' & -> & _).
    reflexivity. }
  assert (Hfail : forall fuel,
             cmb_rep1_fn fuel P c = Returns failure -> P c = Returns failure).
  { intros fuel H. unfold cmb_rep1_fn, cmb_rep_fn in H.
    destruct (rep_loop fuel P [] c) as [r | |] eqn:E; simpl in H;
      try discriminate.
    apply rep_loop_returns in E. destruct E as (vs & c' & -> & Hrun & _).
    simpl in H. destruct vs as [| v vs]; simpl in H; try discriminate.
    now inversion Hrun. }
  repeat split.
  - exact Hspec.
  - apply Hfail.
  - intros Hc. rewrite Hspec. unfold repeat1_spec. now rewrite Hc.
  - exact Hfail.
  - intros fuel d c' H. unfold cmb_rep1_fn in H.
    destruct (cmb_rep_fn fuel P c) as [r | |] eqn:E; simpl in H;
      try discriminate.
    pose proof E as E'. unfold cmb_rep_fn in E'.
    apply rep_loop_returns in E'. destruct E' as (vs & c2 & -> & _).
    simpl in H. destruct vs as [| v vs]; simpl in H; try discriminate.
    injection H as <- <-. exists (v :: vs). repeat split. simpl. lia.
  - intros fuel vs c' H Hlen. unfold cmb_rep1_fn. rewrite H. simpl.
    destruct vs as [| v vs]; [simpl in Hlen; lia | reflexivity].
Qed.

End repetition_facts.

(** [repeat0(digit)] at the start of [1 + 2]: one digit, then the operator
    stops the loop; the sequence is [[1]] and the cursor is at index 1. *)
Lemma cmb_rep_fn_maximal_run_witness :
  cmb_rep_fn 2 digit (mkIt one_plus_two 0)
    = Returns (make_result (Container [Bare 1]) (mkIt one_plus_two 1)).
Proof.
  apply (proj1 (proj2 (cmb_rep_fn_maximal_run digit (mkIt one_plus_two 0)))).
  - apply run_step with (mkIt one_plus_two 1).
    + reflexivity.
    + apply run_stop. reflexivity.
  - simpl. lia.
Defined.

Lemma rep_loop_succ_out_of_fuel (atom : Type) (fuel : nat) :
  forall (acc : list (value atom)) (c : TokenIterator atom),
    rep_loop fuel cmb_succ_fn acc c = OutOfFuel.
Proof.
  induction fuel as [| fuel IH]; intros acc c; simpl.
  - reflexivity.
  - apply IH.
Qed.

(** C5 as stated fails: [succeed] is a parser that succeeds at every cursor
    and consumes nothing, so [repeat0(succeed)] leaves its loop for no amount
    of fuel and returns no success. *)
Lemma cmb_rep_fn_counterexample :
  (forall fuel,
     cmb_rep_fn fuel cmb_succ_fn (mkIt one_plus_two 0) = OutOfFuel) /\
  ~ (exists fuel vs c',
       cmb_rep_fn fuel cmb_succ_fn (mkIt one_plus_two 0)
         = Returns (make_result (Container vs) c')).
Proof.
  split.
  - intros fuel. apply rep_loop_succ_out_of_fuel.
  - intros (fuel & vs & c' & H). unfold cmb_rep_fn in H.
    rewrite rep_loop_succ_out_of_fuel in H. discriminate H.
Qed.

(** [repeat1(digit)] on [1 + 2]: at the start it returns what [repeat0]
    returns, the sequence [[1]]; at the operator it fails, as [digit] does. *)
Lemma cmb_rep1_fn_is_one_then_rep_witness :
  cmb_rep1_fn 2 digit (mkIt one_plus_two 0)
    = Returns (make_result (Container [Bare 1]) (mkIt one_plus_two 1)) /\
  cmb_rep1_fn 2 digit (mkIt one_plus_two 1) = Returns failure.
Proof.
  split.
  - apply (proj2 (proj2 (proj2 (proj2
      (cmb_rep1_fn_is_one_then_rep digit (mkIt one_plus_two 0)))))).
    + reflexivity.
    + simpl. lia.
  - apply (proj1 (proj2
      (cmb_rep1_fn_is_one_then_rep digit (mkIt one_plus_two 1)))).
    reflexivity.
Defined.

Section map_facts.
Variable atom : Type.
Implicit Types (P : combinator atom) (c : TokenIterator atom)
  (v d w : value atom).

(** C7, as the code has it.  With a total [f], [map(P, f)] succeeds exactly
    when [P] succeeds, with [P]'s next cursor, and fails exactly when [P]
    fails; its value is the unwrapping of what [f] returns on the components
    of [P]'s value, which is what [f] returns whenever that is no
    single-component tuple.  With a partial [f], an absent outcome makes
    [map(P, f)] fail, and nothing of what [P] consumed is kept; it succeeds
    exactly when [P] succeeds and the outcome is present, with the unwrapped
    outcome and [P]'s next cursor; and it fails exactly when [P] fails or the
    outcome is absent. *)
Theorem cmb_map_fn_total_partial P c :
  (forall f d c',
     cmb_map_fn P (total_fn f) c = Returns (make_result d c') <->
     exists v, P c = Returns (make_result v c') /\
               d = unwrap_tuple (f (as_tuple v))) /\
  (forall f, cmb_map_fn P (total_fn f) c = Returns failure <->
             P c = Returns failure) /\
  (forall f v c',
     P c = Returns (make_result v c') ->
     is_single (f (as_tuple v)) = false ->
     cmb_map_fn P (total_fn f) c = Returns (make_result (f (as_tuple v)) c')) /\
  (forall f d c',
     cmb_map_fn P (partial_fn f) c = Returns (make_result d c') <->
     exists v w, P c = Returns (make_result v c') /\
                 f (as_tuple v) = Some w /\ d = unwrap_tuple w) /\
  (forall f v c',
     P c = Returns (make_result v c') -> f (as_tuple v) = None ->
     cmb_map_fn P (partial_fn f) c = Returns failure) /\
  (forall f,
     cmb_map_fn P (partial_fn f) c = Returns failure <->
     P c = Returns failure \/
     exists v c', P c = Returns (make_result v c') /\ f (as_tuple v) = None).
Proof.
  unfold cmb_map_fn, cmb_fail_fn1, make_result, failure. repeat split.
  - intros H. destruct (P c) as [[[v c1] |] | |]; simpl in H;
      try discriminate.
    injection H as <- <-. now exists v.
  - intros (v & -> & ->). reflexivity.
  - intros H. destruct (P c) as [[[v c1] |] | |]; simpl in H;
      try discriminate. reflexivity.
  - intros ->. reflexivity.
  - intros f v c' -> Hs. simpl. now rewrite unwrap_tuple_fixed.
  - intros H. destruct (P c) as [[[v c1] |] | |]; simpl in H;
      try discriminate.
    destruct (f (as_tuple v)) as [w |] eqn:Hw; try discriminate.
    injection H as <- <-. now exists v, w.
  - intros (v & w & -> & Hw & ->). simpl. now rewrite Hw.
  - intros f v c' -> Hw. simpl. now rewrite Hw.
  - intros H. destruct (P c) as [[[v c1] |] | |]; simpl in H;
      try discriminate.
    + destruct (f (as_tuple v)) as [w |] eqn:Hw; try discriminate.
      right. now exists v, c1.
    + now left.
  - intros [-> | (v & c' & -> & Hw)]; simpl.
    + reflexivity.
    + now rewrite Hw.
Qed.

End map_facts.

(** [map(sequence(one, one, one), sum_digits)] over [1 + 2]: the three
    tokens are spread as the arguments of the mapper, which adds the first
    and the third; the result is [3] with the cursor at index 3. *)
Lemma cmb_map_fn_total_partial_witness :
  cmb_map_fn (cmb_seq_fn cmb_one_fn [cmb_one_fn; cmb_one_fn])
    (total_fn sum_digits) (mkIt one_plus_two 0)
    = Returns (make_result (Bare 3) (mkIt one_plus_two 3)).
Proof.
  apply (proj1 (proj2 (proj2
    (cmb_map_fn_total_partial
       (cmb_seq_fn cmb_one_fn [cmb_one_fn; cmb_one_fn])
       (mkIt one_plus_two 0))))
    sum_digits (Tuple [Bare 1; Bare 43; Bare 2]) (mkIt one_plus_two 3)).
  - reflexivity.
  - reflexivity.
Defined.

(** C7 as stated fails for a total mapper that returns a one-component
    tuple: on the empty value of [succeed] the mapper returns the tuple
    [(7)], and the value of [map] is the bare [7]. *)
Lemma cmb_map_fn_counterexample :
  cmb_succ_fn (mkIt one_plus_two 0)
    = Returns (make_result (Tuple []) (mkIt one_plus_two 0)) /\
  cmb_map_fn cmb_succ_fn (total_fn seven_tuple) (mkIt one_plus_two 0)
    = Returns (make_result (Bare 7) (mkIt one_plus_two 0)) /\
  cmb_map_fn cmb_succ_fn (total_fn seven_tuple) (mkIt one_plus_two 0)
    <> Returns (make_result (seven_tuple (as_tuple (Tuple [])))
                  (mkIt one_plus_two 0)).
Proof. repeat split. discriminate. Qed.

(** * Further properties of the code *)

(** ** Shaping: round trips and the algebra of [concat] *)

Section shaping_algebra.
Variable atom : Type.
Implicit Types (v a b c x : value atom) (l args : list (value atom)).

Lemma tuple_of_wide args : length args <> 1 -> tuple_of args = Tuple args.
Proof.
  destruct args as [| x [| y args']]; simpl; intros H; try reflexivity.
  now elim H.
Qed.

Lemma tuple_of_as_tuple v : is_single v = false -> tuple_of (as_tuple v) = v.
Proof.
  destruct v as [x | [| t [| t' ts]] | o | vs]; simpl; intros H;
    solve [reflexivity | discriminate H].
Qed.

Lemma unwrap_tuple_of_as_tuple v :
  unwrap_tuple (tuple_of (as_tuple v)) = unwrap_tuple v.
Proof.
  destruct (is_single v) eqn:E.
  - destruct v as [x | [| t [| t' ts]] | o | vs]; try discriminate E.
    reflexivity.
  - now rewrite tuple_of_as_tuple.
Qed.

(** X1: [as_tuple] and [tuple_of] are inverse to each other on unwrapped
    shapes.  A value that is no single-component tuple is rebuilt by
    [tuple_of] from its components, and for any value the rebuilt one unwraps
    to the same; an argument list is recovered by [as_tuple] from its
    [tuple_of] unless it is one argument that is itself a tuple, in which
    case the components of that tuple come back instead. *)
Theorem tuple_of_as_tuple_round_trip :
  (forall v, is_single v = false -> tuple_of (as_tuple v) = v) /\
  (forall v, unwrap_tuple (tuple_of (as_tuple v)) = unwrap_tuple v) /\
  (forall args, length args <> 1 -> as_tuple (tuple_of args) = args) /\
  (forall x, is_tuple x = false -> as_tuple (tuple_of [x]) = [x]) /\
  (forall l, as_tuple (tuple_of [Tuple l]) = l).
Proof.
  split; [exact tuple_of_as_tuple |].
  split; [exact unwrap_tuple_of_as_tuple |].
  split; [| split].
  - intros args H. now rewrite tuple_of_wide.
  - intros x H. simpl. unfold identity. now apply as_tuple_bare.
  - reflexivity.
Qed.

Lemma concat_triple a b c :
  concat [a; b; c] = unwrap_tuple (Tuple (as_tuple a ++ as_tuple b ++ as_tuple c)).
Proof. unfold concat, tuple_cat; simpl. now rewrite app_nil_r. Qed.

Lemma concat_nested_flat a b c :
  is_single a = false -> is_single b = false -> is_single c = false ->
  concat [concat [a; b]; c] = concat [a; b; c] /\
  concat [a; concat [b; c]] = concat [a; b; c].
Proof.
  intros Ha Hb Hc. rewrite concat_triple. split.
  - rewrite concat_pair, (concat_pair_normal a b Ha Hb).
    now rewrite <- app_assoc.
  - rewrite concat_pair, (concat_pair_normal b c Hb Hc). reflexivity.
Qed.

(** X2: on unwrapped shapes [concat] is associative, so that nesting
    concatenations to the left or to the right gives the flat concatenation
    of the three values. *)
Theorem concat_assoc a b c :
  is_single a = false -> is_single b = false -> is_single c = false ->
  concat [concat [a; b]; c] = concat [a; b; c] /\
  concat [a; concat [b; c]] = concat [a; b; c].
Proof.
  intros Ha Hb Hc. destruct (concat_nested_flat a b c Ha Hb Hc) as [L R].
  split; [exact L | exact R].
Qed.

Lemma concat_empty_unit v :
  concat [Tuple []; v] = unwrap_tuple v /\
  concat [v; Tuple []] = unwrap_tuple v /\
  (is_single v = false -> concat [Tuple []; v] = v /\ concat [v; Tuple []] = v).
Proof.
  assert (L : concat [Tuple []; v] = unwrap_tuple v).
  { rewrite concat_pair. simpl (as_tuple (Tuple [])). simpl app.
    destruct v; reflexivity. }
  assert (R : concat [v; Tuple []] = unwrap_tuple v).
  { rewrite concat_pair. simpl (as_tuple (Tuple [])). rewrite app_nil_r.
    destruct v; reflexivity. }
  split; [exact L | split; [exact R |]].
  intros H. rewrite L, R, (unwrap_tuple_fixed v H). now split.
Qed.

End shaping_algebra.

Lemma concat_assoc_witness :
  concat [concat [Bare 1; Tuple [Bare 2; Bare 3]]; Bare 4]
    = concat [Bare 1; Tuple [Bare 2; Bare 3]; Bare 4] /\
  concat [Bare 1; concat [Tuple [Bare 2; Bare 3]; Bare 4]]
    = concat [Bare 1; Tuple [Bare 2; Bare 3]; Bare 4].
Proof.
  apply (@concat_assoc nat (Bare 1) (Tuple [Bare 2; Bare 3]) (Bare 4));
    reflexivity.
Defined.

(** ** Selection *)

Section selection.
Variable atom : Type.
Variable moved_from : value atom -> value atom.
Variable rank : nat -> nat.
Implicit Types (v x : value atom) (args xs : list (value atom))
  (Indicies : list nat).

(** The selection where forwarding copies and nothing is moved. *)
Local Abbreviation pick :=
  (get_each (fun x : value atom => x) (fun _ : nat => 0) 0).

Lemma forwarded_copy n x : moved_from x = x -> forwarded moved_from n x = x.
Proof.
  intros H. unfold forwarded. induction n as [| n IH]; simpl.
  - reflexivity.
  - now rewrite IH.
Qed.

Lemma forwarded_all_copy n args :
  copies moved_from args -> map (forwarded moved_from n) args = args.
Proof.
  intros H. rewrite <- (map_id args) at 2. apply map_ext_in.
  intros x Hx. apply forwarded_copy, H, Hx.
Qed.

Lemma pick_position Indicies args :
  forall q,
    get_each (fun x : value atom => x) (fun _ : nat => 0) q Indicies args
    = pick Indicies args.
Proof.
  induction Indicies as [| i Indicies IH]; intros q; simpl.
  - reflexivity.
  - now rewrite (IH (S q)), (IH 1).
Qed.

Lemma pick_cons i Indicies args :
  pick (i :: Indicies) args =
  match nth_error args i, pick Indicies args with
  | Some x, Some xs => Some (x :: xs)
  | _, _ => None
  end.
Proof.
  simpl. rewrite (pick_position Indicies args 1).
  unfold forwarded. simpl. now rewrite map_id.
Qed.

Lemma get_each_copy args :
  copies moved_from args ->
  forall Indicies p,
    get_each moved_from rank p Indicies args = pick Indicies args.
Proof.
  intros Hc. induction Indicies as [| i Indicies IH]; intros p.
  - reflexivity.
  - rewrite pick_cons. cbn [get_each].
    now rewrite (forwarded_all_copy _ Hc), IH.
Qed.

Lemma get_each_defined Indicies args :
  forall p,
    (exists xs, get_each moved_from rank p Indicies args = Some xs) <->
    Forall (fun i => i < length args) Indicies.
Proof.
  induction Indicies as [| i Indicies IH]; intros p; cbn [get_each].
  - split; [constructor | now exists []].
  - rewrite nth_error_map. split.
    + intros (xs & H).
      destruct (nth_error args i) as [x |] eqn:Ei; try discriminate.
      simpl in H.
      destruct (get_each moved_from rank (S p) Indicies args) as [xs' |] eqn:Eg;
        try discriminate.
      constructor.
      * apply nth_error_Some. now rewrite Ei.
      * apply (IH (S p)). now exists xs'.
    + intros H. inversion H as [| i' l' Hi Hrest]; subst.
      apply (IH (S p)) in Hrest. destruct Hrest as (xs & ->).
      apply nth_error_Some in Hi.
      destruct (nth_error args i) as [x |]; [| now elim Hi].
      simpl. eauto.
Qed.

Lemma get_each_components Indicies args :
  forall p xs,
    get_each moved_from rank p Indicies args = Some xs ->
    length xs = length Indicies /\
    forall k i, nth_error Indicies k = Some i ->
      nth_error xs k
      = option_map (forwarded moved_from (rank (p + k))) (nth_error args i).
Proof.
  induction Indicies as [| i Indicies IH]; cbn [get_each]; intros p xs H.
  - injection H as <-. split; [reflexivity |].
    intros [| k] j Hk; discriminate Hk.
  - rewrite nth_error_map in H.
    destruct (nth_error args i) as [x |] eqn:Ei; try discriminate.
    simpl in H.
    destruct (get_each moved_from rank (S p) Indicies args) as [xs' |] eqn:Eg;
      try discriminate.
    injection H as <-. destruct (IH (S p) xs' Eg) as [Hlen Hnth].
    split; [simpl; now rewrite Hlen |].
    intros [| k] j Hk; simpl in Hk |- *.
    + injection Hk as <-. now rewrite Nat.add_0_r, Ei.
    + rewrite Nat.add_succ_r. now apply Hnth.
Qed.

Lemma pick_components Indicies args xs :
  pick Indicies args = Some xs ->
  length xs = length Indicies /\
  forall k i, nth_error Indicies k = Some i ->
              nth_error xs k = nth_error args i.
Proof.
  revert xs. induction Indicies as [| i Indicies IH]; intros xs H.
  - injection H as <-. split; [reflexivity |].
    intros [| k] j Hk; discriminate Hk.
  - rewrite pick_cons in H.
    destruct (nth_error args i) as [x |] eqn:Ei; try discriminate.
    destruct (pick Indicies args) as [xs' |] eqn:Eg; try discriminate.
    injection H as <-. destruct (IH xs' eq_refl) as [Hlen Hnth].
    split; [simpl; now rewrite Hlen |].
    intros [| k] j Hk; simpl in Hk |- *.
    + injection Hk as <-. now rewrite Ei.
    + now apply Hnth.
Qed.

Lemma pick_suffix (before after : list (value atom)) :
  pick (seq (length before) (length after)) (before ++ after) = Some after.
Proof.
  revert before. induction after as [| x after IH]; intros before.
  - reflexivity.
  - cbn [length seq]. rewrite pick_cons.
    rewrite nth_error_app2, Nat.sub_diag by lia. simpl.
    specialize (IH (before ++ [x])).
    rewrite length_app, <- app_assoc in IH. simpl in IH.
    rewrite Nat.add_1_r in IH. now rewrite IH.
Qed.

Lemma pick_compose Indicies args xs (Js : list nat) :
  pick Indicies args = Some xs ->
  pick Js xs = pick (map (fun j => nth j Indicies (length args)) Js) args.
Proof.
  intros H. destruct (pick_components _ _ H) as [Hlen Hnth].
  induction Js as [| j Js IH].
  - reflexivity.
  - cbn [map]. rewrite !pick_cons, IH.
    assert (E : nth_error xs j =
                nth_error args (nth j Indicies (length args))).
    { destruct (nth_error Indicies j) as [i |] eqn:Ej.
      - rewrite (Hnth j i Ej). now rewrite (nth_error_nth _ _ _ Ej).
      - apply nth_error_None in Ej. rewrite (nth_overflow _ _ Ej).
        rewrite (proj2 (nth_error_None args (length args))) by lia.
        apply nth_error_None. lia. }
    now rewrite E.
Qed.

Lemma pick_within Indicies args xs :
  pick Indicies args = Some xs -> forall x, In x xs -> In x args.
Proof.
  intros H x Hx. destruct (pick_components _ _ H) as [Hlen Hnth].
  apply In_nth_error in Hx. destruct Hx as (k & Hk).
  assert (Hlt : k < length Indicies).
  { rewrite <- Hlen. apply nth_error_Some. now rewrite Hk. }
  apply nth_error_Some in Hlt.
  destruct (nth_error Indicies k) as [i |] eqn:Ei; [| now elim Hlt].
  rewrite (Hnth k i Ei) in Hk. now apply nth_error_In in Hk.
Qed.

(** X3: [select<Is...>] exists exactly when every index is below the number
    of arguments.  With a number of indices other than one it yields a tuple
    with one component per index, in the order of the indices: the component
    for an index is the argument at that index as the tuples built before
    left it, so the argument itself for the tuple built first and its
    moved-from state after that.  Where forwarding copies the arguments, the
    components are the selected arguments, repeated or reordered as the
    indices are, and selecting every index in order gives the [tuple_of] the
    arguments.  A single index gives the bare argument. *)
Theorem select_impl_components Indicies args :
  ((exists v, select_impl moved_from rank Indicies args = Some v) <->
   Forall (fun i => i < length args) Indicies) /\
  (forall v,
     select_impl moved_from rank Indicies args = Some v ->
     length Indicies <> 1 ->
     exists xs, v = Tuple xs /\ length xs = length Indicies /\
       forall k i, nth_error Indicies k = Some i ->
         nth_error xs k
         = option_map (forwarded moved_from (rank k)) (nth_error args i)) /\
  (copies moved_from args ->
   forall v,
     select_impl moved_from rank Indicies args = Some v ->
     length Indicies <> 1 ->
     exists xs, v = Tuple xs /\ length xs = length Indicies /\
       forall k i, nth_error Indicies k = Some i ->
                   nth_error xs k = nth_error args i) /\
  (forall i, rank 0 = 0 ->
     select_impl moved_from rank [i] args = nth_error args i) /\
  (copies moved_from args ->
   select_impl moved_from rank (seq 0 (length args)) args
     = Some (tuple_of args)).
Proof.
  unfold select_impl. split; [| split; [| split; [| split]]].
  - rewrite <- (get_each_defined Indicies args 0). split.
    + intros (v & H).
      destruct (get_each moved_from rank 0 Indicies args) as [xs |];
        [now exists xs | discriminate H].
    + intros (xs & ->). now exists (tuple_of xs).
  - intros v H Hlen.
    destruct (get_each moved_from rank 0 Indicies args) as [xs |] eqn:E;
      [| discriminate H].
    injection H as <-.
    destruct (get_each_components _ _ _ E) as [Hl Hnth].
    exists xs. repeat split; trivial.
    apply tuple_of_wide. now rewrite Hl.
  - intros Hc v H Hlen. rewrite (get_each_copy Hc) in H.
    destruct (pick Indicies args) as [xs |] eqn:E; [| discriminate H].
    injection H as <-.
    destruct (pick_components _ _ E) as [Hl Hnth].
    exists xs. repeat split; trivial.
    apply tuple_of_wide. now rewrite Hl.
  - intros i H0. cbn [get_each]. rewrite H0, nth_error_map.
    destruct (nth_error args i); reflexivity.
  - intros Hc. rewrite (get_each_copy Hc).
    pose proof (pick_suffix [] args) as E. simpl in E. now rewrite E.
Qed.

(** X4: where forwarding copies the arguments, selections compose.
    Selecting [Js] among the components that [select<Is...>] produced is
    selecting, among the original arguments, the indices that [Js] pick out
    of [Is] (and there is no such program as soon as one index of [Js] is out
    of range). *)
Theorem select_impl_compose Indicies args v (Js : list nat) :
  copies moved_from args ->
  select_impl moved_from rank Indicies args = Some v ->
  length Indicies <> 1 ->
  select_impl moved_from rank Js (as_tuple v) =
  select_impl moved_from rank
    (map (fun j => nth j Indicies (length args)) Js) args.
Proof.
  unfold select_impl. intros Hc H Hlen.
  rewrite (get_each_copy Hc) in H |- *.
  destruct (pick Indicies args) as [xs |] eqn:E; [| discriminate H].
  injection H as <-.
  destruct (pick_components _ _ E) as [Hl _].
  rewrite tuple_of_wide by now rewrite Hl.
  cbn [as_tuple].
  assert (Hc' : copies moved_from xs).
  { intros x Hx. apply Hc. apply (pick_within _ _ E x Hx). }
  rewrite (get_each_copy Hc'). now rewrite (pick_compose _ _ Js E).
Qed.

End selection.

(** Two containers selected in swapped order, their tuples built from left
    to right, with moving and with copying: moved, the second component is
    what the first tuple left of the first container; copied, it is the
    container. *)
Lemma select_impl_components_witness :
  (exists xs,
     select_impl (fun _ : value nat => Container []) (fun k => k) [1; 0]
       [Container [Bare 7]; Container [Bare 8]] = Some (Tuple xs) /\
     nth_error xs 0 = Some (Container [Bare 8]) /\
     nth_error xs 1 = Some (Container [])) /\
  (exists xs,
     select_impl (fun x : value nat => x) (fun k => k) [1; 0]
       [Container [Bare 7]; Container [Bare 8]] = Some (Tuple xs) /\
     nth_error xs 1 = Some (Container [Bare 7])).
Proof.
  split.
  - destruct (proj1 (proj2 (@select_impl_components nat
                              (fun _ => Container []) (fun k => k) [1; 0]
                              [Container [Bare 7]; Container [Bare 8]]))
                (Tuple [Container [Bare 8]; Container []]) eq_refl)
      as (xs & Hv & _ & Hnth).
    + discriminate.
    + exists xs. split; [now rewrite <- Hv |]. split.
      * apply (Hnth 0 1 eq_refl).
      * apply (Hnth 1 0 eq_refl).
  - destruct (proj1 (proj2 (proj2 (@select_impl_components nat
                              (fun x => x) (fun k => k) [1; 0]
                              [Container [Bare 7]; Container [Bare 8]])))
                (fun x _ => eq_refl)
                (Tuple [Container [Bare 8]; Container [Bare 7]]) eq_refl)
      as (xs & Hv & _ & Hnth).
    + discriminate.
    + exists xs. split; [now rewrite <- Hv |].
      apply (Hnth 1 0 eq_refl).
Defined.

(** Swapping a pair twice gives the pair back. *)
Lemma select_impl_compose_witness :
  select_impl (fun x : value nat => x) (fun k => k) [1; 0]
    (as_tuple (Tuple [Bare 8; Bare 7]))
  = select_impl (fun x : value nat => x) (fun k => k) [0; 1] [Bare 7; Bare 8].
Proof.
  apply (@select_impl_compose nat (fun x => x) (fun k => k) [1; 0]
           [Bare 7; Bare 8] (Tuple [Bare 8; Bare 7]) [1; 0]).
  - intros x _. reflexivity.
  - reflexivity.
  - discriminate.
Defined.

(** ** Laws of the combinators *)

Section combinator_laws.
Variable atom : Type.
Implicit Types (P Q R : combinator atom) (Rest : list (combinator atom))
  (c : TokenIterator atom) (v d : value atom) (vs : list (value atom))
  (r : result_type atom) (M : Mapper atom).

Lemma run_ends_in_failure P c vs c' : run P c vs c' -> P c' = Returns failure.
Proof. induction 1; assumption. Qed.

Lemma cmb_rep_fn_shape fuel P c r :
  cmb_rep_fn fuel P c = Returns r ->
  exists vs c', r = make_result (Container vs) c' /\ run P c vs c'.
Proof.
  unfold cmb_rep_fn. intros H. apply rep_loop_returns in H.
  destruct H as (vs & c' & -> & Hrun & _). now exists vs, c'.
Qed.

Lemma cmb_rep1_fn_shape fuel P c v c' :
  cmb_rep1_fn fuel P c = Returns (make_result v c') ->
  exists vs, v = Container vs /\ vs <> [] /\ run P c vs c'.
Proof.
  unfold cmb_rep1_fn. intros H.
  destruct (cmb_rep_fn fuel P c) as [r | |] eqn:E; simpl in H;
    try discriminate.
  apply cmb_rep_fn_shape in E. destruct E as (vs & c2 & -> & Hrun).
  simpl in H. destruct vs as [| x vs]; simpl in H; try discriminate.
  injection H as <- <-. exists (x :: vs). repeat split; trivial.
  discriminate.
Qed.

Lemma cmb_seq_fn_cons_success P Q Rest c d c' :
  cmb_seq_fn P (Q :: Rest) c = Returns (make_result d c') ->
  exists v1 c1 v2,
    P c = Returns (make_result v1 c1) /\
    cmb_seq_fn Q Rest c1 = Returns (make_result v2 c') /\
    d = concat [v1; v2].
Proof.
  cbn [cmb_seq_fn]. unfold make_result, cmb_fail_fn1, failure. intros H.
  destruct (P c) as [[[v1 c1] |] | |]; simpl in H; try discriminate.
  destruct (cmb_seq_fn Q Rest c1) as [[[v2 c2] |] | |] eqn:E2; simpl in H;
    try discriminate.
  injection H as <- <-. now exists v1, c1, v2.
Qed.

Lemma cmb_map_fn_success P M c d c' :
  cmb_map_fn P M c = Returns (make_result d c') ->
  exists v w, P c = Returns (make_result v c') /\ d = unwrap_tuple w.
Proof.
  unfold cmb_map_fn, make_result, cmb_fail_fn1, failure. intros H.
  destruct M as [f | f];
    destruct (P c) as [[[v c1] |] | |]; simpl in H; try discriminate.
  - injection H as <- <-. now exists v, (f (as_tuple v)).
  - destruct (f (as_tuple v)) as [w |]; try discriminate.
    injection H as <- <-. now exists v, w.
Qed.

(** X5: whatever a combinator built by [succ], [opt], [seq] of two or more,
    [rep], [rep1] or [map] succeeds with is in unwrapped form, never a tuple
    with exactly one component, whatever its sub-parsers return; and [alt]
    keeps the unwrapped form of its branches. *)
Theorem combinators_well_shaped :
  well_shaped (@cmb_succ_fn atom) /\
  (forall P, well_shaped (cmb_opt_fn P)) /\
  (forall P Q Rest, well_shaped (cmb_seq_fn P (Q :: Rest))) /\
  (forall fuel P, well_shaped (cmb_rep_fn fuel P)) /\
  (forall fuel P, well_shaped (cmb_rep1_fn fuel P)) /\
  (forall P M, well_shaped (cmb_map_fn P M)) /\
  (forall P Rest,
     well_shaped P -> Forall (@well_shaped atom) Rest ->
     well_shaped (cmb_alt_fn P Rest)).
Proof.
  unfold well_shaped.
  split; [| split; [| split; [| split; [| split; [| split]]]]].
  - intros c v c' H. injection H as <- _. reflexivity.
  - intros P c v c' H. unfold cmb_opt_fn in H.
    destruct (P c) as [[[d it] |] | |]; simpl in H; try discriminate;
      injection H as <- _; reflexivity.
  - intros P Q Rest c v c' H.
    apply cmb_seq_fn_cons_success in H.
    destruct H as (v1 & c1 & v2 & _ & _ & ->).
    rewrite concat_pair. apply unwrap_tuple_not_single.
  - intros fuel P c v c' H. apply cmb_rep_fn_shape in H.
    destruct H as (vs & c2 & H & _). injection H as -> _. reflexivity.
  - intros fuel P c v c' H. apply cmb_rep1_fn_shape in H.
    destruct H as (vs & -> & _). reflexivity.
  - intros P M c v c' H. apply cmb_map_fn_success in H.
    destruct H as (v0 & w & _ & ->). apply unwrap_tuple_not_single.
  - intros P Rest HP HRest c v c' H.
    apply cmb_alt_fn_success in H. destruct H as (i & P' & Hi & HP' & _).
    apply nth_error_In in Hi. destruct Hi as [<- | Hin].
    + apply (HP c v c' HP').
    + rewrite Forall_forall in HRest. apply (HRest P' Hin c v c' HP').
Qed.

(** X6: chains of [operator&] may be nested either way.  For parsers whose
    values are in unwrapped form, [(P & Q) & R], [P & (Q & R)] and
    [seq(P, Q, R)] have the same outcome at every cursor: same failure, same
    value, same next cursor. *)
Theorem seq_op_assoc P Q R :
  well_shaped P -> well_shaped Q -> well_shaped R ->
  forall c,
    seq_op (seq_op P Q) R c = cmb_seq_fn P [Q; R] c /\
    seq_op P (seq_op Q R) c = cmb_seq_fn P [Q; R] c.
Proof.
  intros HP HQ HR c. split; [| reflexivity].
  unfold seq_op. cbn [cmb_seq_fn].
  destruct (P c) as [[[v1 c1] |] | |] eqn:EP;
    cbn [bind cmb_fail_fn1 make_result failure]; try reflexivity.
  destruct (Q c1) as [[[v2 c2] |] | |] eqn:EQ;
    cbn [bind cmb_fail_fn1 make_result failure]; try reflexivity.
  destruct (R c2) as [[[v3 c3] |] | |] eqn:ER;
    cbn [bind cmb_fail_fn1 make_result failure]; try reflexivity.
  pose proof (HP _ _ _ EP) as H1. pose proof (HQ _ _ _ EQ) as H2.
  pose proof (HR _ _ _ ER) as H3.
  destruct (concat_nested_flat v1 v2 v3 H1 H2 H3) as [L Rr].
  now rewrite L, Rr.
Qed.

(** X7: [succ] is a unit and [fail] a zero of sequencing.  Before or after
    [P], [succ] adds nothing: the sequence succeeds as [P] does, with [P]'s
    value unwrapped and [P]'s cursor, and fails as [P] does.  A sequence that
    starts with [fail] fails without running [P], and one that ends with
    [fail] fails whenever [P] returns. *)
Theorem seq_succ_fail_laws P c :
  (forall v c', P c = Returns (make_result v c') ->
     cmb_seq_fn cmb_succ_fn [P] c = Returns (make_result (unwrap_tuple v) c') /\
     cmb_seq_fn P [cmb_succ_fn] c = Returns (make_result (unwrap_tuple v) c')) /\
  (P c = Returns failure ->
     cmb_seq_fn cmb_succ_fn [P] c = Returns failure /\
     cmb_seq_fn P [cmb_succ_fn] c = Returns failure) /\
  cmb_seq_fn cmb_fail_fn1 [P] c = Returns failure /\
  (forall r, P c = Returns r ->
     cmb_seq_fn P [cmb_fail_fn1] c = Returns failure).
Proof.
  cbn [cmb_seq_fn]. unfold cmb_succ_fn, cmb_fail_fn1, make_result, failure.
  cbn [bind]. split; [| split; [| split]].
  - intros v c' H. rewrite H. cbn [bind].
    destruct (concat_empty_unit v) as (L & Rr & _).
    now rewrite L, Rr.
  - intros H. rewrite H. cbn [bind]. now split.
  - reflexivity.
  - intros r H. rewrite H. cbn [bind]. now destruct r as [[d it] |].
Qed.

(** X8: chains of [operator|] may be nested either way, and [fail] is a unit
    of the choice: [(P | Q) | R], [P | (Q | R)] and [alt(P, Q, R)] have the
    same outcome at every cursor, and [fail | P] and [P | fail] have the
    outcome of [P]. *)
Theorem alt_op_assoc_unit P Q R c :
  alt_op (alt_op P Q) R c = cmb_alt_fn P [Q; R] c /\
  alt_op P (alt_op Q R) c = cmb_alt_fn P [Q; R] c /\
  alt_op cmb_fail_fn1 P c = P c /\
  alt_op P cmb_fail_fn1 c = P c.
Proof.
  unfold alt_op. cbn [cmb_alt_fn]. unfold cmb_fail_fn1, failure.
  split; [| split; [| split]]; try reflexivity.
  - destruct (P c) as [[res |] | |]; reflexivity.
  - destruct (P c) as [[res |] | |]; reflexivity.
Qed.

End combinator_laws.

Section choice_and_repetition.
Variable atom : Type.
Implicit Types (P Q R : combinator atom) (Rest : list (combinator atom))
  (c : TokenIterator atom) (v d : value atom) (vs : list (value atom))
  (r : result_type atom) (M : Mapper atom).

Lemma well_shaped_map P M : well_shaped (cmb_map_fn P M).
Proof.
  intros c v c' H. apply cmb_map_fn_success in H.
  destruct H as (v0 & w & _ & ->). apply unwrap_tuple_not_single.
Qed.

Lemma never_fails_opt P : never_fails (cmb_opt_fn P).
Proof.
  intros c. unfold cmb_opt_fn.
  destruct (P c) as [[[d it] |] | |]; simpl; discriminate.
Qed.

Lemma never_fails_rep fuel P : never_fails (cmb_rep_fn fuel P).
Proof.
  intros c H. apply cmb_rep_fn_shape in H.
  destruct H as (vs & c' & H & _). discriminate H.
Qed.

Lemma never_fails_succ : never_fails (@cmb_succ_fn atom).
Proof. intros c. discriminate. Qed.

(** X9: the branches after one that never fails are dead.  When the first
    branch of a choice never returns the failure, as an [opt], a [rep] or
    [succ] never does, the choice has the outcome of its first branch at
    every cursor, whatever the other branches are. *)
Theorem alt_after_never_fails P Rest c :
  never_fails P -> cmb_alt_fn P Rest c = P c.
Proof.
  intros HP. destruct Rest as [| Q Rest]; [reflexivity |].
  cbn [cmb_alt_fn]. specialize (HP c). unfold failure in HP.
  destruct (P c) as [[res |] | |]; try reflexivity.
  now elim HP.
Qed.

Lemma rep_never_returns P :
  never_fails P ->
  forall fuel c r,
    cmb_rep_fn fuel P c <> Returns r /\ cmb_rep1_fn fuel P c <> Returns r.
Proof.
  intros HP fuel c r.
  assert (H0 : forall r0, cmb_rep_fn fuel P c <> Returns r0).
  { intros r0 H. apply cmb_rep_fn_shape in H.
    destruct H as (vs & c' & _ & Hrun).
    apply run_ends_in_failure in Hrun. now apply (HP c'). }
  split; [apply H0 |].
  unfold cmb_rep1_fn. intros H.
  destruct (cmb_rep_fn fuel P c) as [r0 | |] eqn:E; simpl in H;
    try discriminate.
  now apply (H0 r0).
Qed.

(** X10: a repetition of a parser that never fails never returns.  The loop
    of [rep] is left only on a failure of the sub-parser, so [rep] and [rep1]
    of a parser that never returns the failure yield no result for any
    amount of fuel; in particular [*~P], [+~P] and [**P] never return. *)
Theorem rep_of_never_fails :
  (forall P, never_fails P ->
     forall fuel c r,
       cmb_rep_fn fuel P c <> Returns r /\ cmb_rep1_fn fuel P c <> Returns r) /\
  (forall P fuel fuel' c r,
     rep_op fuel (opt_op P) c <> Returns r /\
     rep1_op fuel (opt_op P) c <> Returns r /\
     rep_op fuel (rep_op fuel' P) c <> Returns r).
Proof.
  split; [exact rep_never_returns |].
  intros P fuel fuel' c r. unfold rep_op, rep1_op, opt_op.
  destruct (rep_never_returns (never_fails_opt P) fuel c r) as [H1 H2].
  destruct (rep_never_returns (never_fails_rep fuel' P) fuel c r) as [H3 _].
  repeat split; assumption.
Qed.

(** X11: repetition is greedy.  Where [rep(P)] returns, [P] fails at the
    cursor it returns, so [P] sequenced right after [rep(P)] or [rep1(P)]
    never succeeds: the sequence fails whenever the repetition returns. *)
Theorem rep_then_same_fails fuel P c :
  (forall r, cmb_rep_fn fuel P c = Returns r ->
     cmb_seq_fn (cmb_rep_fn fuel P) [P] c = Returns failure) /\
  (forall r, cmb_rep1_fn fuel P c = Returns r ->
     cmb_seq_fn (cmb_rep1_fn fuel P) [P] c = Returns failure) /\
  (forall v c', cmb_seq_fn (cmb_rep_fn fuel P) [P] c
                  <> Returns (make_result v c')) /\
  (forall v c', cmb_seq_fn (cmb_rep1_fn fuel P) [P] c
                  <> Returns (make_result v c')).
Proof.
  split; [| split; [| split]].
  - intros r H. cbn [cmb_seq_fn]. rewrite H. cbn [bind].
    apply cmb_rep_fn_shape in H. destruct H as (vs & c' & -> & Hrun).
    apply run_ends_in_failure in Hrun.
    unfold make_result. rewrite Hrun. reflexivity.
  - intros r H. cbn [cmb_seq_fn]. rewrite H. cbn [bind].
    destruct r as [[v c'] |]; [| reflexivity].
    apply cmb_rep1_fn_shape in H. destruct H as (vs & -> & _ & Hrun).
    apply run_ends_in_failure in Hrun. rewrite Hrun. reflexivity.
  - intros v c' H. apply cmb_seq_fn_cons_success in H.
    destruct H as (v1 & c1 & v2 & H1 & H2 & _).
    apply cmb_rep_fn_shape in H1. destruct H1 as (vs & c2 & E & Hrun).
    injection E as _ <-. apply run_ends_in_failure in Hrun.
    cbn [cmb_seq_fn] in H2. rewrite Hrun in H2. discriminate H2.
  - intros v c' H. apply cmb_seq_fn_cons_success in H.
    destruct H as (v1 & c1 & v2 & H1 & H2 & _).
    apply cmb_rep1_fn_shape in H1. destruct H1 as (vs & _ & _ & Hrun).
    apply run_ends_in_failure in Hrun.
    cbn [cmb_seq_fn] in H2. rewrite Hrun in H2. discriminate H2.
Qed.

(** X12: a failed sequence gives back everything it consumed.  When [P]
    succeeds at [c] and [Q] fails at the cursor [P] returned, a choice whose
    first branch is [seq(P, Q)] runs its next branch from [c] itself, an
    optional [seq(P, Q)] is absent with the cursor [c], and a repetition of
    [seq(P, Q)] is empty with the cursor [c]. *)
Theorem failed_sequence_backtracks P Q R c v c1 :
  P c = Returns (make_result v c1) ->
  Q c1 = Returns failure ->
  cmb_alt_fn (cmb_seq_fn P [Q]) [R] c = R c /\
  cmb_opt_fn (cmb_seq_fn P [Q]) c = Returns (make_result (Optional None) c) /\
  (forall fuel, 0 < fuel ->
     cmb_rep_fn fuel (cmb_seq_fn P [Q]) c
       = Returns (make_result (Container []) c)).
Proof.
  intros HP HQ.
  assert (E : cmb_seq_fn P [Q] c = Returns failure).
  { cbn [cmb_seq_fn]. rewrite HP. unfold make_result. cbn [bind].
    rewrite HQ. reflexivity. }
  split; [| split].
  - cbn [cmb_alt_fn]. rewrite E. reflexivity.
  - unfold cmb_opt_fn. rewrite E. reflexivity.
  - intros [| fuel] Hfuel; [lia |].
    unfold cmb_rep_fn. cbn [rep_loop]. rewrite E. reflexivity.
Qed.

(** X13: a filter mapped over [P].  [map(P, filter(pred))] succeeds exactly
    when [P] succeeds and [pred] holds of the components of [P]'s value; the
    value is then [P]'s value unwrapped, so [P]'s value itself when that is
    in unwrapped form (so for the subscript [P[filter(pred)]]), and the
    cursor is [P]'s.  It fails exactly when [P] fails or [pred] does not
    hold of the components. *)
Theorem filter_impl_through_map P (pred : list (value atom) -> bool) c :
  (forall d c',
     cmb_map_fn P (partial_fn (filter_impl pred)) c
       = Returns (make_result d c') <->
     exists v, P c = Returns (make_result v c') /\
               pred (as_tuple v) = true /\ d = unwrap_tuple v) /\
  (cmb_map_fn P (partial_fn (filter_impl pred)) c = Returns failure <->
     P c = Returns failure \/
     exists v c', P c = Returns (make_result v c') /\
                  pred (as_tuple v) = false) /\
  (forall v c', P c = Returns (make_result v c') ->
     pred (as_tuple v) = true -> is_single v = false ->
     make_subscript_map P (partial_fn (filter_impl pred)) c
       = Returns (make_result v c')).
Proof.
  unfold make_subscript_map, cmb_map_fn, filter_impl, make_maybe,
    cmb_fail_fn1, make_result, failure.
  split; [| split].
  - intros d c'. split.
    + intros H. destruct (P c) as [[[v c1] |] | |]; simpl in H;
        try discriminate.
      destruct (pred (as_tuple v)) eqn:Hp; try discriminate.
      injection H as <- <-. exists v. repeat split; trivial.
      now rewrite unwrap_tuple_of_as_tuple.
    + intros (v & -> & Hp & ->). simpl. rewrite Hp.
      now rewrite unwrap_tuple_of_as_tuple.
  - split.
    + intros H. destruct (P c) as [[[v c1] |] | |]; simpl in H;
        try discriminate.
      * destruct (pred (as_tuple v)) eqn:Hp; try discriminate.
        right. now exists v, c1.
      * now left.
    + intros [-> | (v & c' & -> & Hp)]; simpl.
      * reflexivity.
      * now rewrite Hp.
  - intros v c' -> Hp Hs. simpl. rewrite Hp.
    now rewrite unwrap_tuple_of_as_tuple, unwrap_tuple_fixed.
Qed.

End choice_and_repetition.

(** ** Cursors: progress and termination *)

Section cursors.
Variable atom : Type.
Implicit Types (P Q : combinator atom) (Rest : list (combinator atom))
  (c : TokenIterator atom) (v d : value atom) (vs acc : list (value atom))
  (r : result_type atom) (M : Mapper atom).

Lemma cmb_one_fn_success c v c' :
  cmb_one_fn c = Returns (make_result v c') ->
  deref c = Some v /\ c' = next c /\ pos c < length (stream c).
Proof.
  unfold cmb_one_fn. intros H.
  destruct (deref c) as [tok |] eqn:E; try discriminate.
  injection H as <- <-. repeat split.
  apply nth_error_Some. unfold deref in E. now rewrite E.
Qed.

Lemma advances_one : advances (@cmb_one_fn atom).
Proof.
  intros c v c' H. apply cmb_one_fn_success in H.
  destruct H as (_ & -> & Hlt). simpl. split; [reflexivity | lia].
Qed.

Lemma advances_map P M : advances P -> advances (cmb_map_fn P M).
Proof.
  intros HP c d c' H. apply cmb_map_fn_success in H.
  destruct H as (v & w & H & _). apply (HP c v c' H).
Qed.

Lemma rep_loop_total P :
  advances P -> (forall c, exists r, P c = Returns r) ->
  forall fuel acc c,
    length (stream c) - pos c < fuel ->
    exists vs c',
      rep_loop fuel P acc c = Returns (make_result (Container (acc ++ vs)) c') /\
      length vs <= length (stream c) - pos c.
Proof.
  intros Hadv Htot.
  induction fuel as [| fuel IH]; intros acc c Hfuel; [lia |].
  cbn [rep_loop]. destruct (Htot c) as [[[v c1] |] Hc]; rewrite Hc; cbn [bind].
  - destruct (Hadv c v c1 Hc) as [Hs Hp].
    destruct (IH (acc ++ [v]) c1) as (vs & c' & E & Hlen).
    { rewrite Hs. lia. }
    exists (v :: vs), c'. split.
    + rewrite E. now rewrite <- app_assoc.
    + rewrite Hs in Hlen. simpl. lia.
  - exists [], c. split; [now rewrite app_nil_r | simpl; lia].
Qed.

Lemma rep_loop_bounded P :
  advances P -> (forall c, P c <> OutOfFuel) ->
  forall fuel acc c,
    length (stream c) - pos c < fuel -> rep_loop fuel P acc c <> OutOfFuel.
Proof.
  intros Hadv Hdef.
  induction fuel as [| fuel IH]; intros acc c Hfuel; [lia |].
  cbn [rep_loop]. specialize (Hdef c).
  destruct (P c) as [[[v c1] |] | |] eqn:Hc; cbn [bind]; try discriminate.
  - destruct (Hadv c v c1 Hc) as [Hs Hp].
    apply IH. rewrite Hs. lia.
  - now elim Hdef.
Qed.

(** X14: a repetition of a parser that consumes terminates.  When every
    success of [P] stays on the stream and consumes at least one token, the
    loop of [rep(P)] at [c] makes at most one iteration more than there are
    tokens left: with that much fuel it does not run out of fuel if [P] does
    not, and if [P] returns at every cursor it returns a success with at most
    as many values as there were tokens left. *)
Theorem rep_of_advancing_terminates P c fuel :
  advances P ->
  length (stream c) - pos c < fuel ->
  ((forall c0, P c0 <> OutOfFuel) -> cmb_rep_fn fuel P c <> OutOfFuel) /\
  ((forall c0, exists r, P c0 = Returns r) ->
     exists vs c',
       cmb_rep_fn fuel P c = Returns (make_result (Container vs) c') /\
       length vs <= length (stream c) - pos c).
Proof.
  intros Hadv Hfuel. unfold cmb_rep_fn. split.
  - intros Hdef. now apply rep_loop_bounded.
  - intros Htot. apply (rep_loop_total Hadv Htot [] c Hfuel).
Qed.

Lemma monotone_run P c vs c' :
  monotone P -> run P c vs c' -> stream c' = stream c /\ pos c <= pos c'.
Proof.
  intros HP. induction 1 as [c Hc | c c1 c' v vs Hc Hrun IH].
  - split; [reflexivity | lia].
  - destruct (HP c v c1 Hc) as [Hs Hp]. destruct IH as [Hs' Hp'].
    split; [congruence | lia].
Qed.

Lemma monotone_seq Rest :
  forall P, monotone P -> Forall (@monotone atom) Rest ->
            monotone (cmb_seq_fn P Rest).
Proof.
  induction Rest as [| Q Rest IH]; intros P HP HRest.
  - exact HP.
  - inversion HRest as [| Q' Rest' HQ HRest']; subst.
    intros c d c' H. apply cmb_seq_fn_cons_success in H.
    destruct H as (v1 & c1 & v2 & H1 & H2 & _).
    destruct (HP c v1 c1 H1) as [Hs Hp].
    destruct (IH Q HQ HRest' c1 v2 c' H2) as [Hs' Hp'].
    split; [congruence | lia].
Qed.

(** X15: the cursor only moves forward, on its stream.  [one], [succ] and
    [fail] succeed with a cursor of the same stream that is not before the
    one they were given, and [opt], [map], [rep], [rep1], [seq] and [alt]
    do so whenever their sub-parsers do. *)
Theorem combinators_monotone :
  monotone (@cmb_one_fn atom) /\
  monotone (@cmb_succ_fn atom) /\
  monotone (@cmb_fail_fn1 atom) /\
  (forall P, monotone P -> monotone (cmb_opt_fn P)) /\
  (forall P M, monotone P -> monotone (cmb_map_fn P M)) /\
  (forall fuel P, monotone P ->
     monotone (cmb_rep_fn fuel P) /\ monotone (cmb_rep1_fn fuel P)) /\
  (forall P Rest, monotone P -> Forall (@monotone atom) Rest ->
     monotone (cmb_seq_fn P Rest) /\ monotone (cmb_alt_fn P Rest)).
Proof.
  split; [| split; [| split; [| split; [| split; [| split]]]]].
  - intros c v c' H. destruct (@advances_one c v c' H) as [Hs Hp].
    split; [exact Hs | lia].
  - intros c v c' H. injection H as _ <-. split; [reflexivity | lia].
  - intros c v c' H. discriminate H.
  - intros P HP c v c' H. unfold cmb_opt_fn in H.
    destruct (P c) as [[[d it] |] | |] eqn:E; simpl in H; try discriminate;
      injection H as _ <-.
    + apply (HP c d it E).
    + split; [reflexivity | lia].
  - intros P M HP c d c' H. apply cmb_map_fn_success in H.
    destruct H as (v & w & H & _). apply (HP c v c' H).
  - intros fuel P HP. split.
    + intros c v c' H. apply cmb_rep_fn_shape in H.
      destruct H as (vs & c2 & E & Hrun). injection E as _ <-.
      apply (monotone_run HP Hrun).
    + intros c v c' H. apply cmb_rep1_fn_shape in H.
      destruct H as (vs & _ & _ & Hrun). apply (monotone_run HP Hrun).
  - intros P Rest HP HRest. split.
    + now apply monotone_seq.
    + intros c v c' H. apply cmb_alt_fn_success in H.
      destruct H as (i & P' & Hi & HP' & _).
      apply nth_error_In in Hi. destruct Hi as [<- | Hin].
      * apply (HP c v c' HP').
      * rewrite Forall_forall in HRest. apply (HRest P' Hin c v c' HP').
Qed.

End cursors.

(** ** Folds, continued *)

Section fold_algebra.
Variables A B : Type.

Lemma foldr_impl_fold_right (op : B -> A -> A) (s : list B) (i : A) :
  foldr_impl op s i = fold_right op i s.
Proof.
  unfold foldr_impl.
  rewrite for_range_fold_left, <- fold_left_rev_right, rev_involutive.
  reflexivity.
Qed.

(** X16: a fold can be cut anywhere.  [foldl] over two sequences laid end to
    end is [foldl] over the second, started from [foldl] over the first;
    [foldr] over them is [foldr] over the first, started from [foldr] over
    the second. *)
Theorem fold_impl_append (opl : A -> B -> A) (opr : B -> A -> A) (i : A)
  (s1 s2 : list B) :
  foldl_impl opl i (s1 ++ s2) = foldl_impl opl (foldl_impl opl i s1) s2 /\
  foldr_impl opr (s1 ++ s2) i = foldr_impl opr s1 (foldr_impl opr s2 i).
Proof.
  unfold foldl_impl, foldr_impl. split.
  - apply for_range_app.
  - now rewrite rev_app_distr, for_range_app.
Qed.

End fold_algebra.

Section fold_monoid.
Variable A : Type.
Variable op : A -> A -> A.
Variable e : A.

(** X17: for an associative operation with a two-sided unit, [foldl] and
    [foldr] started from the unit give the same result on every sequence. *)
Theorem fold_impl_agree (s : list A) :
  (forall x y z, op x (op y z) = op (op x y) z) ->
  (forall x, op e x = x) -> (forall x, op x e = x) ->
  foldl_impl op e s = foldr_impl op s e.
Proof.
  intros Hassoc Hl Hr.
  rewrite foldr_impl_fold_right. unfold foldl_impl.
  rewrite for_range_fold_left.
  assert (G : forall a, fold_left op s a = op a (fold_right op e s)).
  { induction s as [| x s' IH]; intros a; simpl.
    - now rewrite Hr.
    - now rewrite IH, Hassoc. }
  now rewrite G, Hl.
Qed.

End fold_monoid.

Lemma fold_impl_agree_witness :
  foldl_impl Nat.add 0 [1; 2; 3] = foldr_impl Nat.add [1; 2; 3] 0.
Proof.
  apply (@fold_impl_agree nat Nat.add 0 [1; 2; 3]).
  - intros x y z. lia.
  - intros x. reflexivity.
  - intros x. lia.
Defined.

(** ** The laws at work on the stream [1 + 2] *)

Lemma seq_op_assoc_witness :
  seq_op (seq_op digit operator) digit (mkIt one_plus_two 0)
    = cmb_seq_fn digit [operator; digit] (mkIt one_plus_two 0).
Proof.
  apply (proj1 (@seq_op_assoc nat digit operator digit
                  (well_shaped_map _ _) (well_shaped_map _ _)
                  (well_shaped_map _ _) (mkIt one_plus_two 0))).
Defined.

Lemma alt_after_never_fails_witness :
  cmb_alt_fn (cmb_opt_fn digit) [operator] (mkIt one_plus_two 1)
    = Returns (make_result (Optional None) (mkIt one_plus_two 1)).
Proof.
  rewrite (@alt_after_never_fails nat (cmb_opt_fn digit) [operator]
             (mkIt one_plus_two 1) (never_fails_opt digit)).
  reflexivity.
Defined.

Lemma rep_of_never_fails_witness :
  cmb_rep_fn 3 (cmb_opt_fn digit) (mkIt one_plus_two 0)
    <> Returns (make_result (Container [Bare 1]) (mkIt one_plus_two 1)).
Proof.
  apply (proj1 (proj1 (rep_of_never_fails nat) (cmb_opt_fn digit)
                  (never_fails_opt digit) 3 (mkIt one_plus_two 0)
                  (make_result (Container [Bare 1]) (mkIt one_plus_two 1)))).
Defined.

Lemma rep_then_same_fails_witness :
  cmb_seq_fn (cmb_rep_fn 2 digit) [digit] (mkIt one_plus_two 0)
    = Returns failure.
Proof.
  apply (proj1 (@rep_then_same_fails nat 2 digit (mkIt one_plus_two 0))
           (make_result (Container [Bare 1]) (mkIt one_plus_two 1))).
  reflexivity.
Defined.

Lemma failed_sequence_backtracks_witness :
  cmb_alt_fn (cmb_seq_fn digit [digit]) [cmb_one_fn] (mkIt one_plus_two 0)
    = Returns (make_result (Bare 1) (mkIt one_plus_two 1)).
Proof.
  rewrite (proj1 (@failed_sequence_backtracks nat digit digit cmb_one_fn
                    (mkIt one_plus_two 0) (Bare 1) (mkIt one_plus_two 1)
                    eq_refl eq_refl)).
  reflexivity.
Defined.

Lemma filter_impl_through_map_witness :
  make_subscript_map cmb_one_fn (partial_fn (filter_impl is_digit))
    (mkIt one_plus_two 0)
    = Returns (make_result (Bare 1) (mkIt one_plus_two 1)).
Proof.
  apply (proj2 (proj2 (@filter_impl_through_map nat cmb_one_fn is_digit
                         (mkIt one_plus_two 0)))
           (Bare 1) (mkIt one_plus_two 1)); reflexivity.
Defined.

Lemma advances_one_checked (atom : Type) : advances (@one_checked atom).
Proof.
  intros c v c' H. unfold one_checked in H.
  destruct (deref c) as [tok |] eqn:E; try discriminate.
  injection H as _ <-. simpl. split; [reflexivity |].
  assert (pos c < length (stream c)).
  { apply nth_error_Some. unfold deref in E. now rewrite E. }
  lia.
Qed.

Lemma one_checked_returns (atom : Type) (c : TokenIterator atom) :
  exists r, one_checked c = Returns r.
Proof. unfold one_checked. destruct (deref c); eauto. Qed.

Lemma digit_never_out_of_fuel (c : TokenIterator nat) : digit c <> OutOfFuel.
Proof.
  unfold digit, cmb_map_fn, cmb_one_fn.
  destruct (deref c) as [tok |]; simpl; try discriminate.
  destruct (filter_impl is_digit (as_tuple tok)); discriminate.
Qed.

(** [rep] of the checked reader over the three tokens of [1 + 2] returns
    with four units of fuel; [rep(digit)] does not run out of fuel
    either. *)
Lemma rep_of_advancing_terminates_witness :
  (exists vs c',
     cmb_rep_fn 4 one_checked (mkIt one_plus_two 0)
       = Returns (make_result (Container vs) c') /\
     length vs <= 3) /\
  cmb_rep_fn 4 digit (mkIt one_plus_two 0) <> OutOfFuel.
Proof.
  split.
  - apply (proj2 (@rep_of_advancing_terminates nat one_checked
                    (mkIt one_plus_two 0) 4 (@advances_one_checked nat)
                    (le_n 4))).
    apply one_checked_returns.
  - apply (proj1 (@rep_of_advancing_terminates nat digit
                    (mkIt one_plus_two 0) 4
                    (advances_map _ (@advances_one nat)) (le_n 4))).
    apply digit_never_out_of_fuel.
Defined.

(** ** The compile-time engine *)

Section comptime_shaping.
Import combinator_comptime siblings.
Variable atom : Type.
Implicit Types (T U V : type atom) (Ts Us Vs : list (type atom)).

Lemma erase_unwrap_single : forall T,
  erase (unwrap_single T) = unwrap_tuple (erase T).
Proof.
  fix IH 1.
  intros [a | [| T' [| T'' Ts]] | |]; simpl; try reflexivity.
  apply IH.
Qed.

Lemma unwrap_single_plain T :
  is_collection T = false -> unwrap_single T = T.
Proof. destruct T; simpl; intros H; solve [reflexivity | discriminate H]. Qed.

Lemma unwrap_single_wide Ts :
  length Ts <> 1 -> unwrap_single (Collection Ts) = Collection Ts.
Proof.
  destruct Ts as [| T [| T' Ts']]; simpl; intros H; try reflexivity.
  now elim H.
Qed.

Lemma erase_injective : forall T U, erase T = erase U -> T = U.
Proof.
  fix IH 1.
  intros [a | Ts | |] [b | Us | |]; simpl; intros H; try discriminate H;
    try reflexivity.
  - now injection H as <-.
  - injection H as H. f_equal. revert Us H.
    induction Ts as [| T Ts IHl]; intros [| U Us] H; simpl in H;
      try discriminate H; try reflexivity.
    injection H as H1 H2. f_equal.
    + now apply IH.
    + now apply IHl.
Qed.

Lemma erase_concat_result_t U V :
  erase (concat_result_t U V) = concat [erase U; erase V].
Proof.
  unfold concat_result_t.
  rewrite erase_unwrap_single, concat_pair. f_equal.
  destruct U as [a | Us | |], V as [b | Vs | |]; simpl;
    rewrite ?List.map_app; reflexivity.
Qed.

Lemma unwrap_single_idem T :
  unwrap_single (unwrap_single T) = unwrap_single T.
Proof.
  apply erase_injective. now rewrite !erase_unwrap_single, unwrap_tuple_idem.
Qed.

(** X18: the two engines shape values alike.  Read as run-time values, a
    [Collection] being a tuple, the type [unwrap_single_t<T>] is the
    [unwrap_tuple] of [T] and the type [concat_result_t<U, V>] is the
    [concat] of [U] and [V]; and two types with the same reading are the same
    type. *)
Theorem comptime_shaping_agrees :
  (forall T, erase (unwrap_single T) = unwrap_tuple (erase T)) /\
  (forall U V, erase (concat_result_t U V) = concat [erase U; erase V]) /\
  (forall T U, erase T = erase U -> T = U).
Proof.
  split; [exact erase_unwrap_single | split; [| exact erase_injective]].
  exact erase_concat_result_t.
Qed.

Lemma rep_call_one_all (rest : list (type atom)) :
  forall (seen : list (type atom)) fuel OldRes OldRem,
    length rest < fuel ->
    Forall (fun T => is_collection T = false) (seen ++ rest) ->
    rep_call fuel one true OldRes OldRem
      (unwrap_single (Collection seen)) (Collection rest)
    = Returns (success_result (unwrap_single (Collection (seen ++ rest)))
                 (Collection [])).
Proof.
  induction rest as [| T rest IH]; intros seen fuel OldRes OldRem Hfuel Hplain;
    (destruct fuel as [| fuel]; [simpl in Hfuel; lia |]); cbn [rep_call one bind].
  - cbn [success fail_result]. destruct fuel; cbn [rep_call];
      rewrite app_nil_r;
      (replace (unwrap_single (unwrap_single (Collection seen)))
         with (unwrap_single (Collection seen)); [reflexivity |]);
      apply erase_injective; now rewrite !erase_unwrap_single, unwrap_tuple_idem.
  - cbn [success result remaining success_result].
    assert (E : concat_result_t (unwrap_single (Collection seen)) T
                = unwrap_single (Collection (seen ++ [T]))).
    { assert (HT : is_collection T = false).
      { rewrite Forall_forall in Hplain. apply Hplain.
        apply in_or_app. right. now left. }
      unfold concat_result_t.
      destruct seen as [| x [| y seen']].
      - simpl. now destruct T.
      - assert (Hx : is_collection x = false).
        { rewrite Forall_forall in Hplain. apply Hplain. now left. }
        cbn [unwrap_single app]. rewrite (unwrap_single_plain x Hx).
        destruct x; try discriminate Hx; destruct T; try discriminate HT;
          reflexivity.
      - rewrite (@unwrap_single_wide (x :: y :: seen')) by (simpl; lia).
        destruct T; try discriminate HT; reflexivity. }
    rewrite E. rewrite (IH (seen ++ [T])).
    + now rewrite <- app_assoc.
    + simpl in Hfuel. lia.
    + now rewrite <- app_assoc.
Qed.

(** X19: the compile-time [one] fails on the empty collection, so a
    repetition of [one] ends: over an input of [n] types none of which is a
    collection, [rep<one>] needs no more than [n + 1] instantiations, leaves
    nothing of the input and has [unwrap_single_t] of the whole input as its
    result. *)
Theorem comptime_rep_one_takes_all Ts fuel :
  Forall (fun T => is_collection T = false) Ts ->
  length Ts < fuel ->
  rep fuel one (Collection Ts)
  = Returns (success_result (unwrap_single (Collection Ts)) (Collection [])).
Proof.
  intros Hplain Hfuel. unfold rep.
  apply (rep_call_one_all Ts [] (Collection []) (Collection Ts) Hfuel Hplain).
Qed.

End comptime_shaping.

Lemma comptime_rep_one_takes_all_witness :
  combinator_comptime.rep 3 combinator_comptime.one
    (combinator_comptime.Collection
       [combinator_comptime.Plain 1; combinator_comptime.Plain 2])
  = Returns (combinator_comptime.success_result
               (combinator_comptime.Collection
                  [combinator_comptime.Plain 1; combinator_comptime.Plain 2])
               (combinator_comptime.Collection [])).
Proof.
  apply (@comptime_rep_one_takes_all nat
           [combinator_comptime.Plain 1; combinator_comptime.Plain 2] 3).
  - repeat constructor.
  - simpl. lia.
Defined.

Section comptime_combinators.
Import combinator_comptime.
Variable atom : Type.
Implicit Types (P Q : cmb atom) (PRest : list (cmb atom))
  (In T Res Rem : type atom) (Ts : list (type atom)) (r : result_type atom).

Lemma rep_call_succeeds P fuel :
  forall Succ OldRes OldRem NewRes NewRem r,
    rep_call fuel P Succ OldRes OldRem NewRes NewRem = Returns r ->
    success r = true.
Proof.
  induction fuel as [| fuel IH];
    intros [|] OldRes OldRem NewRes NewRem r H; cbn [rep_call] in H;
    try discriminate H; try (now injection H as <-).
  destruct (P NewRem) as [r0 | |]; cbn [bind] in H; try discriminate H.
  now apply IH in H.
Qed.

Lemma rep_returns_success P fuel In r :
  rep fuel P In = Returns r -> success r = true.
Proof.
  unfold rep. destruct In as [a | Ts | |]; try discriminate.
  apply rep_call_succeeds.
Qed.

(** X20: the compile-time [opt] and [rep] never fail, and [rep1] fails only
    with its first application.  Whatever [opt<P>] or [rep<P>] derives from
    has [success = true]; when [P] fails on the input, [opt<P>] and [rep<P>]
    give the empty collection and the whole input back; and a result of
    [rep1<P>] has [success = false] exactly when the result of [P] on the
    input has. *)
Theorem comptime_opt_rep_never_fail P Ts :
  (forall r, opt P (Collection Ts) = Returns r -> success r = true) /\
  (forall fuel r, rep fuel P (Collection Ts) = Returns r -> success r = true) /\
  (forall r0, P (Collection Ts) = Returns r0 -> success r0 = false ->
     opt P (Collection Ts)
       = Returns (success_result (Collection []) (Collection Ts)) /\
     forall fuel,
       rep (S (S fuel)) P (Collection Ts)
         = Returns (success_result (Collection []) (Collection Ts))) /\
  (forall fuel r, rep1 fuel P (Collection Ts) = Returns r ->
     exists r0, P (Collection Ts) = Returns r0 /\ success r = success r0).
Proof.
  split; [| split; [| split]].
  - intros r H. unfold opt in H.
    destruct (P (Collection Ts)) as [r0 | |]; cbn [bind] in H;
      try discriminate H.
    destruct (success r0); now injection H as <-.
  - intros fuel r. apply rep_returns_success.
  - intros r0 H0 Hf. split.
    + unfold opt. rewrite H0. cbn [bind]. now rewrite Hf.
    + intros fuel. unfold rep. cbn [rep_call]. rewrite H0. cbn [bind].
      rewrite Hf. reflexivity.
  - intros fuel r H. unfold rep1 in H. cbn [seq mbind2] in H.
    destruct (P (Collection Ts)) as [r0 | |]; cbn [bind] in H;
      try discriminate H.
    exists r0. split; [reflexivity |].
    destruct (success r0) eqn:E0.
    + destruct (rep fuel P (remaining r0)) as [r2 | |] eqn:E2; cbn [bind] in H;
        try discriminate H.
      rewrite (rep_returns_success _ _ _ E2) in H. now injection H as <-.
    + now injection H as <-.
Qed.

Lemma alt_success P PRest Ts r :
  alt P PRest (Collection Ts) = Returns r /\ success r = true <->
  exists i Q,
    nth_error (P :: PRest) i = Some Q /\
    Q (Collection Ts) = Returns r /\ success r = true /\
    forall j Q', j < i -> nth_error (P :: PRest) j = Some Q' ->
      exists r', Q' (Collection Ts) = Returns r' /\ success r' = false.
Proof.
  revert P. induction PRest as [| PNext PRest IH]; intros P.
  - cbn [alt]. split.
    + intros [H Hs]. exists 0, P. repeat split; trivial.
      intros j Q' Hj. lia.
    + intros (i & Q & Hi & HQ & Hs & _).
      destruct i as [| i]; simpl in Hi.
      * injection Hi as <-. now split.
      * destruct i; discriminate Hi.
  - cbn [alt]. split.
    + intros [H Hs].
      destruct (P (Collection Ts)) as [r0 | |] eqn:E0; cbn [bind] in H;
        try discriminate H.
      destruct (success r0) eqn:S0.
      * injection H as <-. exists 0, P. repeat split; trivial.
        -- rewrite E0. destruct r0 as [s0 res0 rem0]. simpl in S0 |- *.
           now rewrite S0.
        -- intros j Q' Hj. lia.
      * destruct (proj1 (IH PNext) (conj H Hs)) as (i & Q & Hi & HQ & _ & Hlt).
        exists (S i), Q. repeat split; trivial.
        intros [| j] Q' Hj HQ'; simpl in HQ'.
        -- injection HQ' as <-. now exists r0.
        -- apply (Hlt j Q'); [lia | exact HQ'].
    + intros (i & Q & Hi & HQ & Hs & Hlt).
      destruct i as [| i]; simpl in Hi.
      * injection Hi as <-. rewrite HQ. cbn [bind]. rewrite Hs.
        destruct r as [s0 res0 rem0]. simpl in Hs |- *. now rewrite Hs.
      * destruct (Hlt 0 P) as (r' & Hr' & Hf'); [lia | reflexivity |].
        rewrite Hr'. cbn [bind]. rewrite Hf'.
        apply IH. exists i, Q. repeat split; trivial.
        intros j Q' Hj HQ'. apply (Hlt (S j) Q'); [lia | exact HQ'].
Qed.

(** X21: the compile-time [alt] is the ordered choice too.  On a collection
    it gives a successful result exactly when some branch gives it on that
    same input while every branch before gives a failing one; and when every
    branch gives a failing result, so does [alt]. *)
Theorem comptime_alt_first_success P PRest Ts :
  (forall r,
     alt P PRest (Collection Ts) = Returns r /\ success r = true <->
     exists i Q,
       nth_error (P :: PRest) i = Some Q /\
       Q (Collection Ts) = Returns r /\ success r = true /\
       forall j Q', j < i -> nth_error (P :: PRest) j = Some Q' ->
         exists r', Q' (Collection Ts) = Returns r' /\ success r' = false) /\
  ((forall Q, In Q (P :: PRest) ->
      exists r', Q (Collection Ts) = Returns r' /\ success r' = false) ->
   exists r, alt P PRest (Collection Ts) = Returns r /\ success r = false).
Proof.
  split; [intros r; apply alt_success |].
  revert P. induction PRest as [| PNext PRest IH]; intros P H.
  - cbn [alt]. apply H. now left.
  - cbn [alt]. destruct (H P (or_introl eq_refl)) as (r' & Hr' & Hf').
    rewrite Hr'. cbn [bind]. rewrite Hf'.
    apply IH. intros Q HQ. apply H. now right.
Qed.

Lemma apply_map_filter (Pred : list (type atom) -> bool) Res :
  apply_map (filter Pred) Res =
  if Pred (match Res with Collection Ts => Ts | _ => [Res] end)
  then unwrap_single Res else map_fail.
Proof. unfold apply_map, filter. destruct Res; reflexivity. Qed.

Lemma applied_result_defined Res Rem :
  Res <> map_fail ->
  applied_result Res Rem = success_result (unwrap_single Res) Rem.
Proof. destruct Res; try reflexivity. intros H. now elim H. Qed.

(** X22: a compile-time filter mapped over [P].  [map<P, filter<Pred>::fn>]
    succeeds exactly when [P] succeeds, [Pred] holds of the components of
    [P]'s result, and that result does not unwrap to [map_fail]; it then has
    [P]'s result unwrapped and [P]'s remaining input.  A result type that is
    [map_fail] itself is taken for a failed mapping, whatever [Pred]
    says. *)
Theorem comptime_filter_through_map P (Pred : list (type atom) -> bool) Ts :
  (forall r,
     map P (filter Pred) (Collection Ts) = Returns r /\ success r = true <->
     exists r0,
       P (Collection Ts) = Returns r0 /\ success r0 = true /\
       Pred (match result r0 with Collection Rs => Rs | _ => [result r0] end)
         = true /\
       unwrap_single (result r0) <> map_fail /\
       r = success_result (unwrap_single (result r0)) (remaining r0)) /\
  (forall Rem,
     P (Collection Ts) = Returns (success_result map_fail Rem) ->
     map P (filter Pred) (Collection Ts) = Returns fail_result).
Proof.
  split.
  - intros r. unfold map. split.
    + intros [H Hs].
      destruct (P (Collection Ts)) as [r0 | |]; cbn [bind] in H;
        try discriminate H.
      destruct (success r0) eqn:S0;
        [| injection H as <-; discriminate Hs].
      injection H as <-. rewrite apply_map_filter in Hs |- *.
      exists r0.
      destruct (Pred _) eqn:Hp; [| discriminate Hs].
      assert (Hne : unwrap_single (result r0) <> map_fail).
      { intros E. rewrite E in Hs. discriminate Hs. }
      repeat split; trivial.
      rewrite (@applied_result_defined _ (remaining r0) Hne).
      now rewrite unwrap_single_idem.
    + intros (r0 & -> & S0 & Hp & Hne & ->). cbn [bind]. rewrite S0.
      rewrite apply_map_filter, Hp.
      rewrite (@applied_result_defined _ (remaining r0) Hne).
      rewrite unwrap_single_idem. now split.
  - intros Rem H. unfold map. rewrite H. cbn [bind success success_result].
    rewrite apply_map_filter. simpl.
    destruct (Pred [map_fail]); reflexivity.
Qed.

End comptime_combinators.

Lemma comptime_filter_through_map_witness :
  combinator_comptime.map combinator_comptime.one
    (combinator_comptime.filter (fun _ : list (combinator_comptime.type nat) => true))
    (combinator_comptime.Collection [combinator_comptime.map_fail])
  = Returns combinator_comptime.fail_result.
Proof.
  apply (proj2 (@comptime_filter_through_map nat combinator_comptime.one
                  (fun _ => true) [combinator_comptime.map_fail])
           (combinator_comptime.Collection [])).
  reflexivity.
Defined.

(** ** The two engines on one grammar *)

Section two_engines.
Import combinator_comptime siblings.
Variable atom : Type.
Implicit Types (g : grammar) (gs : list grammar) (Ts : list (type atom))
  (R : combinator (leaf atom)) (P : cmb atom).

Lemma skipn_cons_nth Ts k T :
  nth_error Ts k = Some T -> skipn k Ts = T :: skipn (S k) Ts.
Proof.
  revert k. induction Ts as [| T0 Ts IH]; intros [| k] H; simpl in H;
    try discriminate H.
  - now injection H as <-.
  - apply (IH k H).
Qed.

Lemma iterator_eta (c : TokenIterator (leaf atom)) :
  c = mkIt (stream c) (pos c).
Proof. now destruct c. Qed.

Lemma grammar_nested_ind (Q : grammar -> Prop) :
  Q g_succ -> Q g_fail -> Q g_one ->
  (forall g gs, Q g -> Forall Q gs -> Q (g_seq g gs)) ->
  (forall g gs, Q g -> Forall Q gs -> Q (g_alt g gs)) ->
  forall g, Q g.
Proof.
  intros Hs Hf Ho Hq Ha. fix IH 1.
  intros [| | | g gs | g gs].
  - exact Hs.
  - exact Hf.
  - exact Ho.
  - apply Hq; [apply IH |].
    induction gs as [| g' gs IHl]; constructor; [apply IH | exact IHl].
  - apply Ha; [apply IH |].
    induction gs as [| g' gs IHl]; constructor; [apply IH | exact IHl].
Qed.

(** *** Shapes and cursors of the run-time combinators *)

Lemma shaped_on_seq s (Rest : list (combinator (leaf atom))) :
  forall R,
    shaped_on s R -> Forall (shaped_on s) Rest ->
    shaped_on s (cmb_seq_fn R Rest).
Proof.
  induction Rest as [| Q Rest IH]; intros R HR Hall c v c' Hc H.
  - apply (HR c v c' Hc H).
  - inversion Hall as [| Q' Rest' HQ HRest]; subst Q' Rest'.
    apply cmb_seq_fn_cons_success in H.
    destruct H as (v1 & c1 & v2 & HP & HQR & ->).
    destruct (HR _ _ _ Hc HP) as [_ Hc1].
    destruct (IH Q HQ HRest c1 v2 c' Hc1 HQR) as [_ Hc'].
    split; [| exact Hc'].
    rewrite concat_pair. apply unwrap_tuple_not_single.
Qed.

Lemma shaped_on_alt s (Rest : list (combinator (leaf atom))) R :
  shaped_on s R -> Forall (shaped_on s) Rest ->
  shaped_on s (cmb_alt_fn R Rest).
Proof.
  intros HR Hall c v c' Hc H.
  apply cmb_alt_fn_success in H. destruct H as (i & R' & Hi & HR' & _).
  apply nth_error_In in Hi. destruct Hi as [<- | Hin].
  - apply (HR c v c' Hc HR').
  - rewrite Forall_forall in Hall. apply (Hall R' Hin c v c' Hc HR').
Qed.

Lemma shaped_on_runtime_of Ts :
  plain_tokens Ts ->
  forall g, shaped_on (List.map (@erase atom) Ts) (runtime_of g).
Proof.
  intros Hts. induction g as [| | | g gs IHg IHgs | g gs IHg IHgs]
    using grammar_nested_ind; cbn [runtime_of].
  - intros c v c' Hc H. unfold cmb_succ_fn, make_result in H.
    injection H as <- <-. now split.
  - intros c v c' Hc H. discriminate H.
  - intros c v c' Hc H. apply cmb_one_fn_success in H.
    destruct H as (Hd & -> & _). split; [| exact Hc].
    unfold deref in Hd. rewrite Hc in Hd. apply nth_error_In in Hd.
    apply in_map_iff in Hd. destruct Hd as (T & <- & HT).
    unfold plain_tokens in Hts. rewrite Forall_forall in Hts.
    apply (Hts T HT).
  - apply shaped_on_seq; [exact IHg |].
    apply Forall_map. exact IHgs.
  - apply shaped_on_alt; [exact IHg |].
    apply Forall_map. exact IHgs.
Qed.

(** *** The run-time sequence may be grouped to the left *)

Lemma seq_pair_regroup s (R1 R2 R3 : combinator (leaf atom)) c :
  shaped_on s R1 -> shaped_on s R2 -> shaped_on s R3 ->
  stream c = s ->
  cmb_seq_fn (cmb_seq_fn R1 [R2]) [R3] c = cmb_seq_fn R1 [cmb_seq_fn R2 [R3]] c.
Proof.
  intros H1 H2 H3 Hc. cbn [cmb_seq_fn].
  destruct (R1 c) as [[[v1 c1] |] | |] eqn:E1;
    cbn [bind cmb_fail_fn1 make_result failure]; try reflexivity.
  destruct (H1 _ _ _ Hc E1) as [S1 Hc1].
  destruct (R2 c1) as [[[v2 c2] |] | |] eqn:E2;
    cbn [bind cmb_fail_fn1 make_result failure]; try reflexivity.
  destruct (H2 _ _ _ Hc1 E2) as [S2 Hc2].
  destruct (R3 c2) as [[[v3 c3] |] | |] eqn:E3;
    cbn [bind cmb_fail_fn1 make_result failure]; try reflexivity.
  destruct (H3 _ _ _ Hc2 E3) as [S3 _].
  destruct (concat_nested_flat v1 v2 v3 S1 S2 S3) as [L Rr].
  now rewrite L, Rr.
Qed.

Lemma seq_regroup s (R1 R2 : combinator (leaf atom))
  (Rest : list (combinator (leaf atom))) c :
  shaped_on s R1 -> shaped_on s R2 -> Forall (shaped_on s) Rest ->
  stream c = s ->
  cmb_seq_fn (cmb_seq_fn R1 [R2]) Rest c = cmb_seq_fn R1 (R2 :: Rest) c.
Proof.
  intros H1 H2 Hall Hc. destruct Rest as [| R3 Rest].
  - reflexivity.
  - inversion Hall as [| R3' Rest' H3 HRest]; subst R3' Rest'.
    exact (@seq_pair_regroup s R1 R2 (cmb_seq_fn R3 Rest) c H1 H2
             (@shaped_on_seq s Rest R3 H3 HRest) Hc).
Qed.

(** *** Agreement, combinator by combinator *)

Lemma agrees_succ Ts : agrees Ts (@cmb_succ_fn (leaf atom)) (@succ atom).
Proof.
  intros k r Hk H. unfold cmb_succ_fn in H. injection H as <-.
  eexists. split; [reflexivity |].
  simpl. repeat split; trivial.
Qed.

Lemma agrees_fail Ts : agrees Ts (@cmb_fail_fn1 (leaf atom)) (@fail atom).
Proof.
  intros k r Hk H. unfold cmb_fail_fn1 in H. injection H as <-.
  eexists. split; [reflexivity |]. reflexivity.
Qed.

Lemma agrees_one Ts : agrees Ts (@cmb_one_fn (leaf atom)) (@one atom).
Proof.
  intros k r Hk H. unfold cmb_one_fn, deref in H. cbn [stream pos] in H.
  match type of H with
  | match ?x with _ => _ end = _ => destruct x as [tok |] eqn:E
  end; try discriminate H.
  injection H as <-.
  rewrite nth_error_map in E.
  destruct (nth_error Ts k) as [T |] eqn:ET; simpl in E;
    try discriminate E.
  injection E as <-.
  rewrite (skipn_cons_nth _ _ ET). eexists. split; [reflexivity |].
  simpl. repeat split; trivial.
  apply nth_error_Some. now rewrite ET.
Qed.

Lemma agrees_mbind2 Ts R1 R2 P1 P2 :
  agrees Ts R1 P1 -> agrees Ts R2 P2 ->
  agrees Ts (cmb_seq_fn R1 [R2]) (mbind2 P1 P2).
Proof.
  intros IH1 IH2 k r Hk H. cbn [cmb_seq_fn] in H. cbn [mbind2].
  destruct (R1 (mkIt (List.map (@erase atom) Ts) k))
    as [[[v1 c1] |] | |] eqn:E1; cbn [bind] in H; try discriminate H.
  - destruct (IH1 k _ Hk E1) as (r1 & C1 & S1 & V1 & St1 & Q1 & Rm1).
    rewrite C1. cbn [bind]. rewrite S1, Rm1.
    rewrite (iterator_eta c1), St1 in H.
    destruct (R2 (mkIt (List.map (@erase atom) Ts) (pos c1)))
      as [[[v2 c2] |] | |] eqn:E2; cbn [bind] in H; try discriminate H.
    + destruct (IH2 (pos c1) _ Q1 E2) as (r2 & C2 & S2 & V2 & St2 & Q2 & Rm2).
      rewrite C2. cbn [bind]. rewrite S2.
      injection H as <-. eexists. split; [reflexivity |].
      simpl. repeat split; trivial.
      rewrite <- V1, <- V2.
      apply erase_concat_result_t.
    + destruct (IH2 (pos c1) _ Q1 E2) as (r2 & C2 & S2).
      simpl in S2. rewrite C2. cbn [bind]. rewrite S2.
      injection H as <-. eexists. split; reflexivity.
  - destruct (IH1 k _ Hk E1) as (r1 & C1 & S1). simpl in S1.
    rewrite C1. cbn [bind]. rewrite S1.
    injection H as <-. eexists. split; reflexivity.
Qed.

(** The run-time sequence folds to the right, the compile-time one to the
    left through [mbind2]: on unwrapped values both give the flat
    concatenation. *)
Lemma agrees_seq Ts gs :
  plain_tokens Ts ->
  Forall (fun g' => agrees Ts (runtime_of g') (comptime_of g')) gs ->
  forall R P,
    shaped_on (List.map (@erase atom) Ts) R ->
    agrees Ts R P ->
    agrees Ts (cmb_seq_fn R (List.map (@runtime_of atom) gs))
      (seq P (List.map (@comptime_of atom) gs)).
Proof.
  intros Hts. induction gs as [| g' gs IH]; intros Hall R P HR HRP.
  - intros k r Hk H. cbn [List.map cmb_seq_fn] in H. cbn [List.map seq].
    apply (HRP k r Hk H).
  - inversion Hall as [| g0 gs0 Hg' Hgs]; subst g0 gs0.
    intros k r Hk H. cbn [List.map] in H. cbn [List.map seq].
    assert (Hsh : Forall (shaped_on (List.map (@erase atom) Ts))
                    (List.map (@runtime_of atom) gs)).
    { apply Forall_map, Forall_forall. intros g1 _.
      apply (shaped_on_runtime_of Hts). }
    rewrite <- (@seq_regroup _ R (runtime_of g') _ (mkIt _ k) HR
                  (shaped_on_runtime_of Hts g') Hsh eq_refl) in H.
    apply (IH Hgs (cmb_seq_fn R [runtime_of g']) (mbind2 P (comptime_of g'))).
    + apply shaped_on_seq; [exact HR |].
      constructor; [apply (shaped_on_runtime_of Hts) | constructor].
    + apply agrees_mbind2; assumption.
    + exact Hk.
    + exact H.
Qed.

Lemma agrees_alt Ts gs :
  Forall (fun g' => agrees Ts (runtime_of g') (comptime_of g')) gs ->
  forall R P,
    agrees Ts R P ->
    agrees Ts (cmb_alt_fn R (List.map (@runtime_of atom) gs))
      (alt P (List.map (@comptime_of atom) gs)).
Proof.
  induction gs as [| g' gs IH]; intros Hall R P HRP k r Hk H.
  - cbn [List.map cmb_alt_fn] in H. cbn [List.map alt].
    apply (HRP k r Hk H).
  - inversion Hall as [| g0 gs0 Hg' Hgs]; subst g0 gs0.
    cbn [List.map cmb_alt_fn] in H. cbn [List.map alt].
    destruct (R (mkIt (List.map (@erase atom) Ts) k))
      as [[[v1 c1] |] | |] eqn:E1; cbn [bind] in H; try discriminate H.
    + destruct (HRP k _ Hk E1) as (r1 & C1 & S1 & V1 & St1 & Q1 & Rm1).
      rewrite C1. cbn [bind]. rewrite S1.
      injection H as <-. eexists. split; [reflexivity |].
      simpl. repeat split; trivial.
    + destruct (HRP k _ Hk E1) as (r1 & C1 & S1). simpl in S1.
      rewrite C1. cbn [bind]. rewrite S1.
      apply (IH Hgs (runtime_of g') (comptime_of g') Hg' k r Hk H).
Qed.

(** X23: where the run-time engine returns, the compile-time engine agrees
    with it.  For a grammar made of [succ], [fail], [one], and [seq] and
    [alt] of any number of parsers, and token types none of which is a
    collection of exactly one type: run by [combinator_types] on the stream
    of the shapes of the types [Ts] from offset [k], and by
    [combinator_comptime] on the collection of the types of [Ts] from the
    [k]-th on, whenever the run-time combinator returns, the compile-time
    one gives a result that fails when it fails and otherwise succeeds with
    the same shape and with the types left from the returned cursor on.
    The run-time [seq] folds its parsers to the right and the compile-time
    one to the left; the condition on the token types is what makes the two
    foldings meet. *)
Theorem comptime_agrees_with_runtime g Ts k r :
  plain_tokens Ts ->
  k <= length Ts ->
  runtime_of g (mkIt (List.map (@erase atom) Ts) k) = Returns r ->
  exists r',
    comptime_of g (Collection (skipn k Ts)) = Returns r' /\
    same_result Ts r r'.
Proof.
  intros Hts. revert k r.
  change (agrees Ts (runtime_of g) (comptime_of g)).
  induction g as [| | | g gs IHg IHgs | g gs IHg IHgs]
    using grammar_nested_ind; cbn [runtime_of comptime_of].
  - apply agrees_succ.
  - apply agrees_fail.
  - apply agrees_one.
  - apply (agrees_seq Hts IHgs (shaped_on_runtime_of Hts g) IHg).
  - apply (agrees_alt IHgs IHg).
Qed.

End two_engines.

(** The grammar [seq(succ, one, one)] on three plain types: both engines
    give the pair of the first two and leave the third. *)
Lemma comptime_agrees_with_runtime_witness :
  exists r',
    siblings.comptime_of
      (siblings.g_seq siblings.g_succ [siblings.g_one; siblings.g_one])
      (combinator_comptime.Collection
         [combinator_comptime.Plain 1; combinator_comptime.Plain 2;
          combinator_comptime.Plain 3])
    = Returns r' /\
    combinator_comptime.result r'
    = combinator_comptime.Collection
        [combinator_comptime.Plain 1; combinator_comptime.Plain 2].
Proof.
  assert (Hts : siblings.plain_tokens
                  [combinator_comptime.Plain 1; combinator_comptime.Plain 2;
                   combinator_comptime.Plain 3]).
  { repeat constructor. }
  destruct (@comptime_agrees_with_runtime nat
              (siblings.g_seq siblings.g_succ [siblings.g_one; siblings.g_one])
              [combinator_comptime.Plain 1; combinator_comptime.Plain 2;
               combinator_comptime.Plain 3]
              0 _ Hts (le_0_n 3) eq_refl)
    as (r' & Hr' & _ & Hv & _).
  exists r'. split; [exact Hr' |].
  apply erase_injective. exact Hv.
Defined.

(** Token types that are collections of one type set the two foldings
    apart: on two tokens of type [Collection<Collection<1, 2>>] the
    run-time [seq(succ, one, one)] gives a pair of pairs, and the
    compile-time one the flat triple of [1], [2] and the second token. *)
Lemma foldings_differ_on_single_collections :
  let T := combinator_comptime.Collection
             [combinator_comptime.Collection
                [combinator_comptime.Plain 1; combinator_comptime.Plain 2]] in
  let g := siblings.g_seq siblings.g_succ [siblings.g_one; siblings.g_one] in
  exists v c' r',
    siblings.runtime_of g (mkIt (List.map (@siblings.erase nat) [T; T]) 0)
      = Returns (make_result v c') /\
    siblings.comptime_of g (combinator_comptime.Collection [T; T])
      = Returns r' /\
    combinator_comptime.success r' = true /\
    siblings.erase (combinator_comptime.result r') <> v.
Proof.
  do 3 eexists. repeat split; try reflexivity. discriminate.
Qed.

Lemma tuple_of_as_tuple_round_trip_witness :
  tuple_of (as_tuple (Tuple [Bare 1; Bare 2])) = Tuple [Bare 1; Bare 2] /\
  as_tuple (tuple_of [Bare 1; Bare 2]) = [Bare 1; Bare 2].
Proof.
  split.
  - apply (proj1 (tuple_of_as_tuple_round_trip nat)). reflexivity.
  - apply (proj1 (proj2 (proj2 (tuple_of_as_tuple_round_trip nat)))).
    discriminate.
Defined.

Lemma combinators_well_shaped_witness :
  well_shaped (cmb_alt_fn digit [operator]).
Proof.
  apply (proj2 (proj2 (proj2 (proj2 (proj2 (proj2
           (combinators_well_shaped nat))))))).
  - apply well_shaped_map.
  - constructor; [apply well_shaped_map | constructor].
Defined.

Lemma seq_succ_fail_laws_witness :
  cmb_seq_fn cmb_succ_fn [digit] (mkIt one_plus_two 0)
    = Returns (make_result (Bare 1) (mkIt one_plus_two 1)) /\
  cmb_seq_fn digit [cmb_fail_fn1] (mkIt one_plus_two 0) = Returns failure.
Proof.
  split.
  - apply (proj1 (proj1 (@seq_succ_fail_laws nat digit (mkIt one_plus_two 0))
                    (Bare 1) (mkIt one_plus_two 1) eq_refl)).
  - apply (proj2 (proj2 (proj2
             (@seq_succ_fail_laws nat digit (mkIt one_plus_two 0))))
             (make_result (Bare 1) (mkIt one_plus_two 1))).
    reflexivity.
Defined.

Lemma monotone_one_checked (atom : Type) : monotone (@one_checked atom).
Proof.
  intros c v c' H. destruct (@advances_one_checked atom c v c' H) as [Hs Hp].
  split; [exact Hs | lia].
Qed.

Lemma combinators_monotone_witness :
  monotone (cmb_rep_fn 4 (cmb_opt_fn (@one_checked nat))).
Proof.
  apply (proj1 (proj1 (proj2 (proj2 (proj2 (proj2 (proj2
           (combinators_monotone nat)))))) 4 _
           (proj1 (proj2 (proj2 (proj2 (combinators_monotone nat))))
              _ (@monotone_one_checked nat)))).
Defined.

Lemma comptime_opt_rep_never_fail_witness :
  combinator_comptime.rep 2 combinator_comptime.one
    (combinator_comptime.Collection (@nil (combinator_comptime.type nat)))
  = Returns (combinator_comptime.success_result
               (combinator_comptime.Collection [])
               (combinator_comptime.Collection [])).
Proof.
  apply (proj2 (proj1 (proj2 (proj2
           (@comptime_opt_rep_never_fail nat combinator_comptime.one [])))
           combinator_comptime.fail_result eq_refl eq_refl)).
Defined.

Lemma comptime_alt_first_success_witness :
  combinator_comptime.alt combinator_comptime.fail [combinator_comptime.one]
    (combinator_comptime.Collection [combinator_comptime.Plain 5])
  = Returns (combinator_comptime.success_result (combinator_comptime.Plain 5)
               (combinator_comptime.Collection [])).
Proof.
  apply (proj2 (proj1 (@comptime_alt_first_success nat
                         combinator_comptime.fail [combinator_comptime.one]
                         [combinator_comptime.Plain 5])
                  (combinator_comptime.success_result
                     (combinator_comptime.Plain 5)
                     (combinator_comptime.Collection [])))).
  exists 1, combinator_comptime.one. repeat split.
  intros [| j] Q' Hj HQ'; [| lia].
  injection HQ' as <-. eexists. split; reflexivity.
Defined.
